(** * permissions-webpack-plugin: SetFilePermissionsPlugin

    A shallow embedding of
    [packages/permissions-webpack-plugin/src/lib/permissions-webpack-plugin.ts]:
    the constructor (validation and normalisation of the rule list) and the
    [afterEmit] hook registered by [apply] (capability check, rule matching,
    one [chmod] per matched asset, the promises, their join and the
    completion callback).

    JavaScript values are a small untyped universe, because the constructor
    inspects its argument with [typeof], [Array.isArray] and [instanceof].
    [RegExp] objects are mutable (their [lastIndex]); they live in a store,
    addressed by the identity of the object. *)

From stdpp Require Import gmap strings list pretty.
From Stdlib Require Import ZArith Permutation.

Set Warnings "-register-all".

(** ** JavaScript values *)

(** [[RegExpMatcher]] of ECMAScript: applied to the subject string and a
    start index, it answers the end index of the match that begins exactly
    there, if there is one. *)
Definition Matcher : Type := string → nat → option nat.

(** A [RegExp] object: its identity (the address of its [lastIndex] in the
    store), its compiled pattern and the two flags that make [test]
    depend on [lastIndex]. *)
Record RegExp : Type := mkRegExp {
  re_loc : nat;
  re_matcher : Matcher;
  re_global : bool;
  re_sticky : bool
}.

(** Numbers are restricted to the integral ones: the plugin never computes
    with a number, it hands [permissions] on as it received it. *)
Inductive JSValue : Type :=
| JSUndefined
| JSNull
| JSBoolean (b : bool)
| JSNumber (n : Z)
| JSBigInt (n : Z)
| JSString (s : string)
| JSSymbol (description : string)
| JSFunction (name : string)
| JSRegExp (r : RegExp)
| JSArray (elements : list JSValue)
| JSObject (properties : list (string * JSValue)).

Inductive JSType : Type :=
| TUndefined | TObject | TBoolean | TNumber | TBigInt | TString | TSymbol
| TFunction.

#[global] Instance JSType_eq_dec : EqDecision JSType.
Proof. solve_decision. Defined.

(** The [typeof] operator. *)
Definition typeof (v : JSValue) : JSType :=
  match v with
  | JSUndefined => TUndefined
  | JSNull => TObject
  | JSBoolean _ => TBoolean
  | JSNumber _ => TNumber
  | JSBigInt _ => TBigInt
  | JSString _ => TString
  | JSSymbol _ => TSymbol
  | JSFunction _ => TFunction
  | JSRegExp _ => TObject
  | JSArray _ => TObject
  | JSObject _ => TObject
  end.

(** [ToBoolean], as used by [!v] and [if (v)]. *)
Definition truthy (v : JSValue) : bool :=
  match v with
  | JSUndefined | JSNull => false
  | JSBoolean b => b
  | JSNumber n | JSBigInt n => negb (n =? 0)%Z
  | JSString s => negb (String.eqb s EmptyString)
  | JSSymbol _ | JSFunction _ | JSRegExp _ | JSArray _ | JSObject _ => true
  end.

(** [v === null] *)
Definition is_null (v : JSValue) : bool :=
  match v with JSNull => true | _ => false end.

(** [Array.isArray(v)] *)
Definition Array_isArray (v : JSValue) : bool :=
  match v with JSArray _ => true | _ => false end.

(** [v instanceof RegExp] *)
Definition instanceof_RegExp (v : JSValue) : bool :=
  match v with JSRegExp _ => true | _ => false end.

(** ** Exceptions *)

(** An [Error] instance, as far as the plugin reads it. *)
Record Error : Type := new_Error { message : string }.

Inductive result (A : Type) : Type :=
| Ok (a : A)
| Throw (e : Error).
Arguments Ok {A} a.
Arguments Throw {A} e.

#[global] Instance result_ret : MRet result := λ A a, Ok a.
#[global] Instance result_bind : MBind result :=
  λ A B f c, match c with Ok a => f a | Throw e => Throw e end.

(** Lookup of an own property in an object literal; the first binding of
    the key is the one an object with distinct keys has. *)
Fixpoint own_property (properties : list (string * JSValue)) (key : string)
  : JSValue :=
  match properties with
  | [] => JSUndefined
  | (k, v) :: rest => if String.eqb k key then v else own_property rest key
  end.

(** The property read [v.key], for the keys the plugin reads ([rules],
    [permissions], [patterns]): a missing property reads as [undefined],
    and reading a property of [undefined] or [null] throws a [TypeError].
    Arrays, regular expressions, functions and the wrappers of primitive
    values have none of these three properties. *)
Definition get (v : JSValue) (key : string) : result JSValue :=
  match v with
  | JSUndefined | JSNull =>
      Throw (new_Error ("Cannot read properties of " +:+
                        (if is_null v then "null" else "undefined") +:+
                        " (reading '" +:+ key +:+ "')"))
  | JSObject properties => Ok (own_property properties key)
  | _ => Ok JSUndefined
  end.

(** ** The rule set and the constructor *)

(** [SetFilePermissionsRules<(string | RegExp)[]>]; the fields hold what the
    configuration held, the constructor checks no more than what is
    written below. *)
Record Rule : Type := mkRule {
  permissions : JSValue;
  patterns : list JSValue
}.

(** [SetFilePermissionsPlugin.name] *)
Definition plugin_name : string := "SetFilePermissionsPlugin".

(** The double quote character of the messages. *)
Definition dq : string := String (Ascii.ascii_of_nat 34) EmptyString.

(** [`${index}`] for an array index. *)
Definition index_to_string (index : nat) : string := pretty index.

Definition msg_options_required : string :=
  plugin_name +:+ ": Options object is required.".

Definition msg_rules_not_array : string :=
  plugin_name +:+ ": The " +:+ dq +:+ "rules" +:+ dq +:+
  " option must be an array.".

Definition msg_rule_not_object (index : nat) : string :=
  plugin_name +:+ ": Rule at index " +:+ index_to_string index +:+
  " must be an object.".

Definition msg_permissions_required (index : nat) : string :=
  plugin_name +:+ ": " +:+ dq +:+ "permissions" +:+ dq +:+
  " option is required for rule at index " +:+ index_to_string index +:+ ".".

Definition msg_patterns_required (index : nat) : string :=
  plugin_name +:+ ": " +:+ dq +:+ "patterns" +:+ dq +:+
  " option is required for rule at index " +:+ index_to_string index +:+ ".".

Definition msg_patterns_invalid (index : nat) : string :=
  plugin_name +:+ ": " +:+ dq +:+ "patterns" +:+ dq +:+
  " option for rule at index " +:+ index_to_string index +:+
  " must be a string, RegExp, or an array of strings/RegExps.".

(** The callback of [options.rules.map((rule, index) => ...)]. *)
Definition normalize_rule (rule : JSValue) (index : nat) : result Rule :=
  if bool_decide (typeof rule ≠ TObject) || is_null rule then
    Throw (new_Error (msg_rule_not_object index))
  else
    rule_permissions ← get rule "permissions";
    if bool_decide (typeof rule_permissions = TUndefined) then
      Throw (new_Error (msg_permissions_required index))
    else
      rule_patterns ← get rule "patterns";
      if bool_decide (typeof rule_patterns = TUndefined) then
        Throw (new_Error (msg_patterns_required index))
      else if bool_decide (typeof rule_patterns ≠ TString)
              && negb (instanceof_RegExp rule_patterns)
              && negb (Array_isArray rule_patterns) then
        Throw (new_Error (msg_patterns_invalid index))
      else
        Ok {| permissions := rule_permissions;
              patterns := match rule_patterns with
                          | JSArray elements => elements
                          | _ => [rule_patterns]
                          end |}.

(** [Array.prototype.map] with a callback that may throw: the elements are
    visited in index order and the first exception ends the loop. Arrays
    are dense: an array literal of the configuration has no holes. *)
Fixpoint Array_map {A B : Type} (f : A → nat → result B) (index : nat)
    (elements : list A) : result (list B) :=
  match elements with
  | [] => Ok []
  | x :: rest =>
      y ← f x index;
      ys ← Array_map f (S index) rest;
      Ok (y :: ys)
  end.

(** [new SetFilePermissionsPlugin(options)]: the value of [this.#rules], or
    the exception thrown. *)
Definition constructor (options : JSValue) : result (list Rule) :=
  if negb (truthy options) || bool_decide (typeof options ≠ TObject)
     || is_null options then
    Throw (new_Error msg_options_required)
  else
    options_rules ← get options "rules";
    match options_rules with
    | JSArray rules => Array_map normalize_rule 0 rules
    | _ => Throw (new_Error msg_rules_not_array)
    end.

(** ** Regular expressions *)

(** The [lastIndex] of every [RegExp] object, by the identity of the object;
    an object that was never written has [lastIndex] 0. *)
Definition lastIndex_of (σ : gmap nat nat) (r : RegExp) : nat :=
  default 0 (σ !! re_loc r).

(** The loop of RegExpBuiltinExec for a pattern that is not sticky: the
    matcher is tried at [lastIndex], [lastIndex + 1], ... up to the length of
    the subject; [tries] is the number of start positions left. *)
Fixpoint search (m : Matcher) (subject : string) (lastIndex tries : nat)
  : option nat :=
  match tries with
  | 0 => None
  | S tries' =>
      match m subject lastIndex with
      | Some e => Some e
      | None => search m subject (S lastIndex) tries'
      end
  end.

(** [r.test(subject)] (RegExpBuiltinExec of ECMAScript): without the [g] and
    [y] flags the search starts at 0 and nothing is written; with one of them
    it starts at the object's [lastIndex], which is set to the end of the
    match on success and to 0 on failure; a sticky pattern is tried at
    [lastIndex] only. *)
Definition RegExp_test (r : RegExp) (subject : string) (σ : gmap nat nat)
  : bool * gmap nat nat :=
  let stateful := re_global r || re_sticky r in
  let lastIndex := if stateful then lastIndex_of σ r else 0 in
  let found :=
    if re_sticky r then
      if bool_decide (lastIndex ≤ String.length subject)
      then re_matcher r subject lastIndex else None
    else search (re_matcher r) subject lastIndex
           (S (String.length subject) - lastIndex) in
  match found with
  | Some e => (true, if stateful then <[re_loc r := e]> σ else σ)
  | None => (false, if stateful then <[re_loc r := 0]> σ else σ)
  end.

(** A fragment of the pattern language, enough to write the expressions of
    the README and of the tests: a character, [.], the empty pattern,
    sequence, alternation, greedy [*], [^] and [$]. *)
Inductive Pattern : Type :=
| PChar (c : Ascii.ascii)
| PAny
| PEmpty
| PSeq (p q : Pattern)
| PAlt (p q : Pattern)
| PStar (p : Pattern)
| PBegin
| PEnd.

Definition line_terminator (c : Ascii.ascii) : bool :=
  Ascii.eqb c (Ascii.ascii_of_nat 10) || Ascii.eqb c (Ascii.ascii_of_nat 13).

(** The backtracking matcher of ECMAScript, in continuation passing style:
    [k] is what remains to be matched after the pattern. An iteration of
    [*] that consumes nothing is refused, so [fuel], which bounds the
    iterations of a star by the length of the subject, is never used up. *)
Fixpoint backtrack (fuel : nat)
  : Pattern → string → nat → (nat → option nat) → option nat :=
  fix go (p : Pattern) (subject : string) (i : nat) (k : nat → option nat)
      {struct p} : option nat :=
    match p with
    | PChar c =>
        match String.get i subject with
        | Some c' => if Ascii.eqb c c' then k (S i) else None
        | None => None
        end
    | PAny =>
        match String.get i subject with
        | Some c' => if line_terminator c' then None else k (S i)
        | None => None
        end
    | PEmpty => k i
    | PSeq p1 p2 => go p1 subject i (λ j, go p2 subject j k)
    | PAlt p1 p2 =>
        match go p1 subject i k with
        | Some e => Some e
        | None => go p2 subject i k
        end
    | PStar p1 =>
        match fuel with
        | 0 => k i
        | S fuel' =>
            match go p1 subject i
                    (λ j, if bool_decide (i < j)
                          then backtrack fuel' (PStar p1) subject j k
                          else None) with
            | Some e => Some e
            | None => k i
            end
        end
    | PBegin => if bool_decide (i = 0) then k i else None
    | PEnd => if bool_decide (i = String.length subject) then k i else None
    end.

Definition compile (p : Pattern) : Matcher :=
  λ subject i, backtrack (String.length subject) p subject i Some.

(** The pattern that matches the characters of [s] one after the other. *)
Fixpoint literal (s : string) : Pattern :=
  match s with
  | EmptyString => PEmpty
  | String c rest => PSeq (PChar c) (literal rest)
  end.

(** ** Rule matching *)

(** Computations that read and write the [lastIndex] of regular
    expressions. *)
Definition Matching (A : Type) : Type := gmap nat nat → A * gmap nat nat.

(** The callback of [rule.patterns.some((pattern) => ...)]. *)
Definition pattern_matches (assetName : string) (pattern : JSValue)
  : Matching bool :=
  λ σ, match pattern with
       | JSString s => (String.eqb assetName s, σ)
       | JSRegExp r => RegExp_test r assetName σ
       | _ => (false, σ)
       end.

(** [Array.prototype.some]: stops at the first element the callback
    accepts. *)
Fixpoint Array_some {A : Type} (f : A → Matching bool) (elements : list A)
  : Matching bool :=
  λ σ, match elements with
       | [] => (false, σ)
       | x :: rest =>
           let '(b, σ') := f x σ in
           if b then (true, σ') else Array_some f rest σ'
       end.

(** [Array.prototype.find]: the first element the callback accepts. *)
Fixpoint Array_find {A : Type} (f : A → Matching bool) (elements : list A)
  : Matching (option A) :=
  λ σ, match elements with
       | [] => (None, σ)
       | x :: rest =>
           let '(b, σ') := f x σ in
           if b then (Some x, σ') else Array_find f rest σ'
       end.

(** [this.#rules.find((rule) => rule.patterns.some(...))] *)
Definition matchingRule (rules : list Rule) (assetName : string)
  : Matching (option Rule) :=
  Array_find (λ rule, Array_some (pattern_matches assetName) (patterns rule))
             rules.

(** ** The host: output file system, compiler, compilation *)

(** What one call of [outputFileSystem.chmod(path, mode, callback)] does
    with its callback: the invocations it makes before it returns, whether
    it returns or throws, and the invocations it leaves for later turns of
    the event loop. The argument of an invocation is the error, if any
    ([NodeJS.ErrnoException | null]); what is thrown is an [Error]. *)
Record ChmodRun : Type := mkChmodRun {
  sync_callbacks : list (option Error);
  thrown : option Error;
  later_callbacks : list (option Error)
}.

(** [compiler.outputFileSystem] when it is an object: the value of its
    [chmod] property, and, for when that value is called, the behaviour of
    the call number [n] of this run of the hook on a path and a mode. *)
Record OutputFileSystem : Type := mkOutputFileSystem {
  chmod : JSValue;
  chmod_run : nat → string → JSValue → ChmodRun
}.

(** [compiler.options.output.path] and [compiler.outputFileSystem] ([None]
    for [null]). *)
Record Compiler : Type := mkCompiler {
  output_path : string;
  outputFileSystem : option OutputFileSystem
}.

Record Compilation : Type := mkCompilation {
  assets : list (string * JSValue);
  warnings : list Error;
  errors : list Error
}.

(** [Object.keys(o)], for an object given by its properties in enumeration
    order. *)
Definition Object_keys (properties : list (string * JSValue)) : list string :=
  properties.*1.

(** Everything the hook reads and writes, and what the host sees of it: the
    compilation, the [lastIndex] of the regular expressions, the calls made
    to [chmod] (path and mode) and the invocations of the hook's
    [callback] (with the error, if any). *)
Record World : Type := mkWorld {
  compilation : Compilation;
  lastIndexes : gmap nat nat;
  chmod_calls : list (string * JSValue);
  callback_calls : list (option Error)
}.

Definition push_warning (e : Error) (w : World) : World :=
  {| compilation := {| assets := assets (compilation w);
                       warnings := warnings (compilation w) ++ [e];
                       errors := errors (compilation w) |};
     lastIndexes := lastIndexes w;
     chmod_calls := chmod_calls w;
     callback_calls := callback_calls w |}.

Definition push_error (e : Error) (w : World) : World :=
  {| compilation := {| assets := assets (compilation w);
                       warnings := warnings (compilation w);
                       errors := errors (compilation w) ++ [e] |};
     lastIndexes := lastIndexes w;
     chmod_calls := chmod_calls w;
     callback_calls := callback_calls w |}.

Definition set_lastIndexes (σ : gmap nat nat) (w : World) : World :=
  {| compilation := compilation w;
     lastIndexes := σ;
     chmod_calls := chmod_calls w;
     callback_calls := callback_calls w |}.

Definition record_chmod (path : string) (mode : JSValue) (w : World) : World :=
  {| compilation := compilation w;
     lastIndexes := lastIndexes w;
     chmod_calls := chmod_calls w ++ [(path, mode)];
     callback_calls := callback_calls w |}.

Definition call_callback (err : option Error) (w : World) : World :=
  {| compilation := compilation w;
     lastIndexes := lastIndexes w;
     chmod_calls := chmod_calls w;
     callback_calls := callback_calls w ++ [err] |}.

Definition msg_no_chmod : string :=
  plugin_name +:+ ": The output file system does not support 'chmod'. " +:+
  "Skipping permission changes.".

Definition msg_could_not_set (filePath : string) (err : Error) : string :=
  plugin_name +:+ ": Could not set permissions for " +:+ filePath +:+
  ". Error: " +:+ message err.

Definition msg_unexpected (err : Error) : string :=
  plugin_name +:+ ": An unexpected error occurred. " +:+ message err.

(** ** Promises *)

Inductive Promise : Type :=
| Pending
| Fulfilled
| Rejected (reason : Error).

(** The [resolve] function of a promise: the first settlement stays. *)
Definition resolve (p : Promise) : Promise :=
  match p with Pending => Fulfilled | _ => p end.

(** What the [Promise] constructor does when the executor throws. *)
Definition reject (reason : Error) (p : Promise) : Promise :=
  match p with Pending => Rejected reason | _ => p end.

(** One element of [mods]: the promise of one matched asset, with the path
    its callback closes over and the invocations of that callback the
    primitive has still to make. *)
Record Mod : Type := mkMod {
  filePath : string;
  promise : Promise;
  queued : list (option Error)
}.

(** The hook between two turns of the event loop: the world, [mods], and
    whether the reaction chained on [Promise.all(mods)] has run. *)
Record Hook : Type := mkHook {
  world : World;
  mods : list Mod;
  joined : bool
}.

Definition is_fulfilled (p : Promise) : bool :=
  match p with Fulfilled => true | _ => false end.

(** The reason [Promise.all] rejects with: that of the first rejected
    element (a promise of [mods] is rejected while the hook runs or never,
    so the first in time is the first of the array). *)
Fixpoint first_rejection (ms : list Mod) : option Error :=
  match ms with
  | [] => None
  | m :: rest =>
      match promise m with
      | Rejected reason => Some reason
      | _ => first_rejection rest
      end
  end.

Section Hook.

(** [join] of [node:path], for the platform the build runs on. *)
Variable path_join : string → string → string.

(** The callback handed to [chmod]: [(err) => { if (err) {...push...} resolve() }],
    its effect on the world. *)
Definition chmod_callback (filePath : string) (err : option Error) (w : World)
  : World :=
  match err with
  | Some e => push_warning (new_Error (msg_could_not_set filePath e)) w
  | None => w
  end.

(** [new Promise((resolve) => { ... outputFileSystem.chmod(...) })] for a
    matched asset. The executor runs at once: the call is made, the
    invocations of the callback that happen inside the call take effect, and
    an exception of the call rejects the promise unless it is settled. *)
Definition new_Promise (fs : OutputFileSystem) (outputPath assetName : string)
    (rule : Rule) (w : World) : Mod * World :=
  let filePath := path_join outputPath assetName in
  let run := chmod_run fs (length (chmod_calls w)) filePath (permissions rule) in
  let w1 := record_chmod filePath (permissions rule) w in
  let w2 := fold_left (λ w err, chmod_callback filePath err w)
                      (sync_callbacks run) w1 in
  let p := fold_left (λ p _, resolve p) (sync_callbacks run) Pending in
  let p := match thrown run with Some e => reject e p | None => p end in
  ({| filePath := filePath; promise := p; queued := later_callbacks run |}, w2).

(** The callback of [Object.keys(compilation.assets).map((assetName) => ...)]:
    a promise for a matched asset, [null] otherwise. *)
Definition mod_of_asset (rules : list Rule) (fs : OutputFileSystem)
    (outputPath assetName : string) (w : World) : option Mod * World :=
  let '(found, σ) := matchingRule rules assetName (lastIndexes w) in
  let w := set_lastIndexes σ w in
  match found with
  | Some rule =>
      let '(m, w) := new_Promise fs outputPath assetName rule w in (Some m, w)
  | None => (None, w)
  end.

Fixpoint map_assets (rules : list Rule) (fs : OutputFileSystem)
    (outputPath : string) (assetNames : list string) (w : World)
  : list (option Mod) * World :=
  match assetNames with
  | [] => ([], w)
  | assetName :: rest =>
      let '(m, w) := mod_of_asset rules fs outputPath assetName w in
      let '(ms, w) := map_assets rules fs outputPath rest w in
      (m :: ms, w)
  end.

(** [Promise.all(mods).then(() => callback()).catch((err) => {...})], once
    the promises allow it: with a rejected element the error is pushed and
    the callback gets it; with all elements fulfilled the callback is
    invoked without argument; otherwise nothing happens yet. The callback
    is the host's continuation and is taken to return normally here, so that
    [catch] only sees a rejection of [Promise.all];
    [Promise_all_reaction_host] below is the reaction for a callback that
    may throw. *)
Definition Promise_all_reaction (h : Hook) : Hook :=
  if joined h then h
  else
    match first_rejection (mods h) with
    | Some err =>
        {| world := call_callback (Some err)
                      (push_error (new_Error (msg_unexpected err)) (world h));
           mods := mods h;
           joined := true |}
    | None =>
        if forallb (λ m, is_fulfilled (promise m)) (mods h) then
          {| world := call_callback None (world h);
             mods := mods h;
             joined := true |}
        else h
    end.

(** The branch taken without a usable [chmod]. *)
Definition skip_without_chmod (w : World) : Hook :=
  {| world := call_callback None (push_warning (new_Error msg_no_chmod) w);
     mods := [];
     joined := true |}.

(** One turn of the event loop: the function tapped on [afterEmit] runs to
    its return, and then the reaction chained on [Promise.all(mods)] gets its
    first chance, as a microtask of the same turn. The state at the return
    itself is [afterEmit_return] below. *)
Definition afterEmit (rules : list Rule) (compiler : Compiler)
    (c : Compilation) (σ : gmap nat nat) : Hook :=
  let w := {| compilation := c; lastIndexes := σ;
              chmod_calls := []; callback_calls := [] |} in
  let outputPath := output_path compiler in
  match outputFileSystem compiler with
  | None => skip_without_chmod w
  | Some fs =>
      if bool_decide (typeof (chmod fs) ≠ TFunction) then skip_without_chmod w
      else
        let '(promises, w) :=
          map_assets rules fs outputPath (Object_keys (assets c)) w in
        Promise_all_reaction
          {| world := w; mods := omap id promises; joined := false |}
  end.

(** A later turn of the event loop: the primitive makes the next invocation
    it owes to the callback of [mods[i]]. *)
Definition deliver (h : Hook) (i : nat) : Hook :=
  match mods h !! i with
  | Some m =>
      match queued m with
      | err :: rest =>
          Promise_all_reaction
            {| world := chmod_callback (filePath m) err (world h);
               mods := <[i := {| filePath := filePath m;
                                 promise := resolve (promise m);
                                 queued := rest |}]> (mods h);
               joined := joined h |}
      | [] => h
      end
  | None => h
  end.

(** The hook followed by the deliveries of [schedule], in that order. *)
Definition run_hook (rules : list Rule) (compiler : Compiler)
    (c : Compilation) (σ : gmap nat nat) (schedule : list nat) : Hook :=
  fold_left deliver schedule (afterEmit rules compiler c σ).

End Hook.

(** ** Vocabulary of the specification *)

(** "An object": what [typeof] calls an object, [null] excluded. *)
Definition is_object (v : JSValue) : Prop := typeof v = TObject ∧ v ≠ JSNull.

(** The value of a property of an object, [undefined] when it is absent. *)
Definition field (v : JSValue) (key : string) : JSValue :=
  match v with
  | JSObject properties => own_property properties key
  | _ => JSUndefined
  end.

(** The four ways a rule can be invalid, in the order of section 4.1 of the
    specification. *)
Inductive Violation : Type :=
| NotAnObject
| MissingPermissions
| MissingPatterns
| InvalidPatterns.

Definition rank (v : Violation) : nat :=
  match v with
  | NotAnObject => 0
  | MissingPermissions => 1
  | MissingPatterns => 2
  | InvalidPatterns => 3
  end.

(** A single string, a single regular expression, or a sequence. *)
Definition valid_patterns (v : JSValue) : Prop :=
  typeof v = TString ∨ instanceof_RegExp v = true ∨ Array_isArray v = true.

Definition has_violation (rule : JSValue) (v : Violation) : Prop :=
  match v with
  | NotAnObject => ¬ is_object rule
  | MissingPermissions => field rule "permissions" = JSUndefined
  | MissingPatterns => field rule "patterns" = JSUndefined
  | InvalidPatterns => ¬ valid_patterns (field rule "patterns")
  end.

Definition well_formed_rule (rule : JSValue) : Prop :=
  ∀ v, ¬ has_violation rule v.

(** The violation that is met first when the four checks are made in
    order. *)
Definition first_violation (rule : JSValue) (v : Violation) : Prop :=
  has_violation rule v ∧ ∀ v', rank v' < rank v → ¬ has_violation rule v'.

Definition violation_message (v : Violation) (index : nat) : string :=
  match v with
  | NotAnObject => msg_rule_not_object index
  | MissingPermissions => msg_permissions_required index
  | MissingPatterns => msg_patterns_required index
  | InvalidPatterns => msg_patterns_invalid index
  end.

(** The invalid configurations, each with the message of its first
    violation: the options, then the rule list, then the rules in order. *)
Inductive rejected_with : JSValue → string → Prop :=
| rejected_options options :
    ¬ is_object options →
    rejected_with options msg_options_required
| rejected_rules options :
    is_object options →
    Array_isArray (field options "rules") = false →
    rejected_with options msg_rules_not_array
| rejected_rule options good bad rest v :
    is_object options →
    field options "rules" = JSArray (good ++ bad :: rest) →
    Forall well_formed_rule good →
    first_violation bad v →
    rejected_with options (violation_message v (length good)).

(** The list form of a [patterns] value. *)
Definition pattern_list (v : JSValue) : list JSValue :=
  match v with
  | JSArray elements => elements
  | _ => [v]
  end.

(** The rule the rule set holds for a rule of the configuration. *)
Definition normalized (rule : JSValue) : Rule :=
  {| permissions := field rule "permissions";
     patterns := pattern_list (field rule "patterns") |}.

(** A pattern that is a string or a regular expression. *)
Definition usable_pattern (pattern : JSValue) : bool :=
  bool_decide (typeof pattern = TString) || instanceof_RegExp pattern.

(** What the lookup of the code answers for every asset name, the names
    taken in order as [map] takes them; the regular expressions keep their
    [lastIndex] from one name to the next. With regular expressions that
    carry [g] or [y] this is not the match result of the specification
    ([first_match] below). *)
Fixpoint resolve_assets (rules : list Rule) (assetNames : list string)
  : Matching (list (string * option Rule)) :=
  λ σ, match assetNames with
       | [] => ([], σ)
       | assetName :: rest =>
           let '(found, σ1) := matchingRule rules assetName σ in
           let '(results, σ2) := resolve_assets rules rest σ1 in
           ((assetName, found) :: results, σ2)
       end.

(** The assets for which that lookup finds a rule, each with the rule
    found: the assets the code issues an operation for. *)
Definition matched_assets (rules : list Rule) (assetNames : list string)
    (σ : gmap nat nat) : list (string * Rule) :=
  omap (λ '(assetName, found), (assetName,.) <$> found)
       (resolve_assets rules assetNames σ).1.

(** One permission-change operation: the arguments of the call and what the
    primitive does of it. *)
Record Operation : Type := mkOperation {
  op_path : string;
  op_mode : JSValue;
  op_run : ChmodRun
}.

(** Every argument the primitive passes to the callback of an operation. *)
Definition op_callbacks (o : Operation) : list (option Error) :=
  sync_callbacks (op_run o) ++ later_callbacks (op_run o).

(** The warning for an argument of the callback, if it is an error. *)
Definition warning_of (path : string) (err : option Error) : option Error :=
  (λ e, new_Error (msg_could_not_set path e)) <$> err.

Definition op_warnings (o : Operation) : list Error :=
  omap (warning_of (op_path o)) (op_callbacks o).

(** The promise of an operation when the executor returns. *)
Definition op_promise (o : Operation) : Promise :=
  match sync_callbacks (op_run o), thrown (op_run o) with
  | [], Some e => Rejected e
  | [], None => Pending
  | _ :: _, _ => Fulfilled
  end.

(** The warnings owed to the invocations still queued. *)
Definition pending_warnings (ms : list Mod) : list Error :=
  ms ≫= (λ m, omap (warning_of (filePath m)) (queued m)).

(** Every invocation the primitive scheduled has been made. *)
Definition drained (h : Hook) : Prop :=
  Forall (λ m, queued m = []) (mods h).

(** The primitive honours the contract of its callback: one invocation per
    call, and no exception. *)
Definition calls_back_once (fs : OutputFileSystem) : Prop :=
  ∀ n path mode,
    thrown (chmod_run fs n path mode) = None ∧
    length (sync_callbacks (chmod_run fs n path mode) ++
            later_callbacks (chmod_run fs n path mode)) = 1.

(** The primitive always succeeds: it calls back, never with an error, and
    does not throw. *)
Definition always_succeeds (fs : OutputFileSystem) : Prop :=
  ∀ n path mode,
    thrown (chmod_run fs n path mode) = None ∧
    sync_callbacks (chmod_run fs n path mode) ++
      later_callbacks (chmod_run fs n path mode) ≠ [] ∧
    Forall (λ err, err = None)
      (sync_callbacks (chmod_run fs n path mode) ++
       later_callbacks (chmod_run fs n path mode)).

Section Operations.

Variable path_join : string → string → string.

(** The operations of the matched assets, the calls numbered from [n]. *)
Fixpoint operations (fs : OutputFileSystem) (outputPath : string) (n : nat)
    (matched : list (string * Rule)) : list Operation :=
  match matched with
  | [] => []
  | (assetName, rule) :: rest =>
      let path := path_join outputPath assetName in
      {| op_path := path;
         op_mode := permissions rule;
         op_run := chmod_run fs n path (permissions rule) |}
      :: operations fs outputPath (S n) rest
  end.

End Operations.

(** The element of [mods] an operation starts as. *)
Definition mod_of_op (o : Operation) : Mod :=
  {| filePath := op_path o;
     promise := op_promise o;
     queued := later_callbacks (op_run o) |}.

(** The warnings of the invocations made inside the call. *)
Definition op_sync_warnings (o : Operation) : list Error :=
  omap (warning_of (op_path o)) (sync_callbacks (op_run o)).

(** "The asset name satisfies the expression": the expression has a match
    somewhere in the name, the search starting at the first character. *)
Definition satisfies (r : RegExp) (assetName : string) : bool :=
  bool_decide (is_Some (search (re_matcher r) assetName 0
                               (S (String.length assetName)))).

(** "Matching" of section 3 of the specification: a string pattern matches
    iff it is equal to the asset name, a regular expression iff the asset
    name satisfies it. *)
Definition matches (assetName : string) (pattern : JSValue) : bool :=
  match pattern with
  | JSString s => String.eqb assetName s
  | JSRegExp r => satisfies r assetName
  | _ => false
  end.

(** "Match Result" of the specification: the first rule, in configuration
    order, whose pattern list has a matching pattern. *)
Definition first_match (rules : list Rule) (assetName : string) : option Rule :=
  List.find (λ rule, existsb (matches assetName) (patterns rule)) rules.

(** A pattern whose test writes nothing: anything but a regular expression
    with the [g] or the [y] flag. *)
Definition stateless (pattern : JSValue) : Prop :=
  match pattern with
  | JSRegExp r => re_global r = false ∧ re_sticky r = false
  | _ => True
  end.

(** The operations of a run of the hook: those of the matched assets of the
    compilation, numbered from 0. *)
Definition run_operations (path_join : string → string → string)
    (rules : list Rule) (compiler : Compiler) (fs : OutputFileSystem)
    (c : Compilation) (σ : gmap nat nat) : list Operation :=
  operations path_join fs (output_path compiler) 0
             (matched_assets rules (Object_keys (assets c)) σ).

(** The error an operation reports, when its callback is invoked once. *)
Definition reported_error (o : Operation) : option Error :=
  match op_callbacks o with
  | [err] => err
  | _ => None
  end.

(** The warning of a failing operation. *)
Definition failure_warning (o : Operation) : option Error :=
  (λ e, new_Error (msg_could_not_set (op_path o) e)) <$> reported_error o.

(** A rule without the patterns that are neither strings nor regular
    expressions. *)
Definition usable_part (rule : Rule) : Rule :=
  {| permissions := permissions rule;
     patterns := List.filter usable_pattern (patterns rule) |}.

(** ** Example values *)

(** [join] on POSIX, for a directory without trailing slash and a relative
    name that is already normal. *)
Definition posix_join (dir name : string) : string := dir +:+ "/" +:+ name.

(** The source of [/\.js$/] and of [/\.css$/]. *)
Definition dot_js : Pattern := PSeq (literal ".js") PEnd.
Definition dot_css : Pattern := PSeq (literal ".css") PEnd.

(** [/\.js$/] and [/\.css$/], two objects. *)
Definition re_js : RegExp :=
  {| re_loc := 0; re_matcher := compile dot_js;
     re_global := false; re_sticky := false |}.
Definition re_css : RegExp :=
  {| re_loc := 1; re_matcher := compile dot_css;
     re_global := false; re_sticky := false |}.

(** [/\.js$/g] *)
Definition re_js_global : RegExp :=
  {| re_loc := 0; re_matcher := compile dot_js;
     re_global := true; re_sticky := false |}.

Definition rule_object (rule_permissions rule_patterns : JSValue) : JSValue :=
  JSObject [("permissions", rule_permissions); ("patterns", rule_patterns)].

Definition options_object (rule_list : list JSValue) : JSValue :=
  JSObject [("rules", JSArray rule_list)].

(** The scenario of section 8 of the specification. *)
Definition scenario_options : JSValue :=
  options_object [rule_object (JSNumber 493) (JSArray [JSRegExp re_js]);
                  rule_object (JSNumber 420) (JSArray [JSRegExp re_css])].

Definition scenario_rules : list Rule :=
  [{| permissions := JSNumber 493; patterns := [JSRegExp re_js] |};
   {| permissions := JSNumber 420; patterns := [JSRegExp re_css] |}].

(** An asset of the compilation; the hook reads the names only. *)
Definition source : JSValue := JSObject [].

Definition scenario_compilation : Compilation :=
  {| assets := [("script.js", source); ("style.css", source);
                ("readme.txt", source)];
     warnings := []; errors := [] |}.

(** A primitive that calls back at once, without error. *)
Definition chmod_succeeds : OutputFileSystem :=
  {| chmod := JSFunction "chmod";
     chmod_run := λ _ _ _, {| sync_callbacks := [None]; thrown := None;
                              later_callbacks := [] |} |}.

(** A primitive that calls back in a later turn, with an error for the
    style sheet. *)
Definition permission_denied : Error := new_Error "Permission denied".

Definition chmod_fails_css : OutputFileSystem :=
  {| chmod := JSFunction "chmod";
     chmod_run := λ _ path _,
       {| sync_callbacks := []; thrown := None;
          later_callbacks :=
            [if String.eqb path "/out/style.css"
             then Some permission_denied else None] |} |}.

(** A primitive that throws. *)
Definition unexpected_error : Error := new_Error "Unexpected error".

Definition chmod_throws : OutputFileSystem :=
  {| chmod := JSFunction "chmod";
     chmod_run := λ _ _ _, {| sync_callbacks := []; thrown := Some unexpected_error;
                              later_callbacks := [] |} |}.

(** A primitive that invokes the callback, without error, and then
    throws. *)
Definition chmod_calls_back_then_throws : OutputFileSystem :=
  {| chmod := JSFunction "chmod";
     chmod_run := λ _ _ _, {| sync_callbacks := [None];
                              thrown := Some unexpected_error;
                              later_callbacks := [] |} |}.

(** An output file system without [chmod]. *)
Definition no_chmod : OutputFileSystem :=
  {| chmod := JSUndefined;
     chmod_run := λ _ _ _, {| sync_callbacks := []; thrown := None;
                              later_callbacks := [] |} |}.

Definition scenario_compiler (fs : option OutputFileSystem) : Compiler :=
  {| output_path := "/out"; outputFileSystem := fs |}.

(** The rules of the test "should use first matching rule when multiple
    rules match", the regular expression written with the [g] flag, and a
    compilation with a second script, [vendor.js], before [script.js]. *)
Definition global_options : JSValue :=
  options_object [rule_object (JSNumber 493) (JSRegExp re_js_global);
                  rule_object (JSNumber 420) (JSString "script.js")].

Definition global_rules : list Rule :=
  [{| permissions := JSNumber 493; patterns := [JSRegExp re_js_global] |};
   {| permissions := JSNumber 420; patterns := [JSString "script.js"] |}].

Definition global_compilation : Compilation :=
  {| assets := [("vendor.js", source); ("script.js", source)];
     warnings := []; errors := [] |}.

(** The configuration and the compilation of the test "should handle rule
    with permissions as 0 (no permissions)", and the same with [null] as
    permissions. *)
Definition zero_options : JSValue :=
  options_object [rule_object (JSNumber 0) (JSString "script.js")].

Definition null_options : JSValue :=
  options_object [rule_object JSNull (JSString "script.js")].

Definition script_compilation : Compilation :=
  {| assets := [("script.js", source)]; warnings := []; errors := [] |}.

(** A rule whose pattern array holds a number, [null] and an object. *)
Definition junk_options : JSValue :=
  options_object
    [rule_object (JSNumber 493) (JSArray [JSNumber 5; JSNull; JSObject []])].

(** A compilation with two scripts that no string pattern names. *)
Definition two_scripts_compilation : Compilation :=
  {| assets := [("a.js", source); ("b.js", source)];
     warnings := []; errors := [] |}.

(** ** The test suite of the repository *)

(** [/\.extension$/], as a new object at [loc]. *)
Definition ext (loc : nat) (extension : string) : JSValue :=
  JSRegExp {| re_loc := loc;
              re_matcher := compile (PSeq (literal ("." +:+ extension)) PEnd);
              re_global := false; re_sticky := false |}.

(** [/\.(css|html|json)$/] *)
Definition css_html_json (loc : nat) : JSValue :=
  JSRegExp {| re_loc := loc;
              re_matcher :=
                compile (PSeq (literal ".")
                           (PSeq (PAlt (literal "css")
                                    (PAlt (literal "html") (literal "json")))
                                 PEnd));
              re_global := false; re_sticky := false |}.

(** What a test observes: the calls of the mock [chmod], the messages of
    the warnings and of the errors, and how the hook's callback was
    invoked. *)
Record Observed : Type := mkObserved {
  seen_calls : list (string * JSValue);
  seen_warnings : list string;
  seen_errors : list string;
  seen_callback : list (option Error)
}.

(** [runHook] of the tests: a plugin is built from the rules, its hook runs
    on the compiler of [beforeEach] (output path [/output/path]) with the
    given assets and output file system, and the mock answers inside the
    call. *)
Definition runHook (rule_list : list JSValue) (assetNames : list string)
    (fs : option OutputFileSystem) : result Observed :=
  rules ← constructor (options_object rule_list);
  let h := run_hook posix_join rules
             {| output_path := "/output/path"; outputFileSystem := fs |}
             {| assets := (λ name, (name, source)) <$> assetNames;
                warnings := []; errors := [] |} ∅ [] in
  Ok {| seen_calls := chmod_calls (world h);
        seen_warnings := message <$> warnings (compilation (world h));
        seen_errors := message <$> errors (compilation (world h));
        seen_callback := callback_calls (world h) |}.

(** The mock of "should add warning when chmod fails". *)
Definition chmod_denied : OutputFileSystem :=
  {| chmod := JSFunction "chmod";
     chmod_run := λ _ _ _, {| sync_callbacks := [Some permission_denied];
                              thrown := None; later_callbacks := [] |} |}.

(** An output file system that is the empty object. *)
Definition empty_object_fs : OutputFileSystem :=
  {| chmod := JSUndefined;
     chmod_run := λ _ _ _, {| sync_callbacks := []; thrown := None;
                              later_callbacks := [] |} |}.

(** ** Further vocabulary and example values *)

(** A rule of the rule set, written back as a rule of a configuration. *)
Definition to_config (rule : Rule) : JSValue :=
  rule_object (permissions rule) (JSArray (patterns rule)).

(** The regular expression at [loc] may be written by the rule lookup: some
    pattern of some rule is that object and carries the [g] or the [y]
    flag. *)
Definition may_write (rules : list Rule) (loc : nat) : Prop :=
  ∃ rule r, rule ∈ rules ∧ JSRegExp r ∈ patterns rule ∧
            re_global r || re_sticky r = true ∧ re_loc r = loc.

(** A primitive that returns and never invokes the callback. *)
Definition chmod_never_calls_back : OutputFileSystem :=
  {| chmod := JSFunction "chmod";
     chmod_run := λ _ _ _, {| sync_callbacks := []; thrown := None;
                              later_callbacks := [] |} |}.

(** A primitive that reports its error twice, inside the call and later. *)
Definition chmod_reports_twice : OutputFileSystem :=
  {| chmod := JSFunction "chmod";
     chmod_run := λ _ _ _, {| sync_callbacks := [Some permission_denied];
                              thrown := None;
                              later_callbacks := [Some permission_denied] |} |}.

(** The compilation of the scenario, its assets in the opposite order. *)
Definition scenario_compilation_reversed : Compilation :=
  {| assets := [("readme.txt", source); ("style.css", source);
                ("script.js", source)];
     warnings := []; errors := [] |}.

(** [/\.js$/y], an object of its own. *)
Definition re_js_sticky : RegExp :=
  {| re_loc := 7; re_matcher := compile dot_js;
     re_global := false; re_sticky := true |}.

(** ** The hook at its return, and a host callback that may throw *)

(** The state when the tapped function returns: the calls are made, the
    reaction to [Promise.all(mods)] has not run yet. Without a usable
    [chmod] the callback was invoked inside the function. *)
Definition afterEmit_return (path_join : string → string → string)
    (rules : list Rule) (compiler : Compiler) (c : Compilation)
    (σ : gmap nat nat) : Hook :=
  let w := {| compilation := c; lastIndexes := σ;
              chmod_calls := []; callback_calls := [] |} in
  let outputPath := output_path compiler in
  match outputFileSystem compiler with
  | None => skip_without_chmod w
  | Some fs =>
      if bool_decide (typeof (chmod fs) ≠ TFunction) then skip_without_chmod w
      else
        let '(promises, w) :=
          map_assets path_join rules fs outputPath (Object_keys (assets c)) w in
        {| world := w; mods := omap id promises; joined := false |}
  end.

(** The callback the host passes to the tapped function: what its
    invocation number [n] (from 0) throws on the given argument, [None] when
    it returns normally. *)
Definition HostCallback : Type := nat → option Error → option Error.

(** [Promise.all(mods).then(() => callback()).catch((err) => {...})] with
    such a callback. [catch] is chained after [then]: it receives a rejection
    of [Promise.all], and also an exception of [callback()] in [then]; in
    both cases it pushes the error and invokes the callback with it. An
    exception of the invocation made in [catch] rejects the last promise of
    the chain, which nothing observes. *)
Definition Promise_all_reaction_host (cb : HostCallback) (h : Hook) : Hook :=
  if joined h then h
  else
    match first_rejection (mods h) with
    | Some err =>
        {| world := call_callback (Some err)
                      (push_error (new_Error (msg_unexpected err)) (world h));
           mods := mods h;
           joined := true |}
    | None =>
        if forallb (λ m, is_fulfilled (promise m)) (mods h) then
          match cb (length (callback_calls (world h))) None with
          | None =>
              {| world := call_callback None (world h);
                 mods := mods h;
                 joined := true |}
          | Some err =>
              {| world := call_callback (Some err)
                            (push_error (new_Error (msg_unexpected err))
                               (call_callback None (world h)));
                 mods := mods h;
                 joined := true |}
          end
        else h
    end.

(** The turn of the tapped function, the later deliveries and the run, with
    such a callback. Without a usable [chmod] the callback is invoked inside
    the tapped function, outside any promise: its exception goes to the host
    and the plugin does nothing more. *)
Definition afterEmit_host (cb : HostCallback)
    (path_join : string → string → string) (rules : list Rule)
    (compiler : Compiler) (c : Compilation) (σ : gmap nat nat) : Hook :=
  Promise_all_reaction_host cb (afterEmit_return path_join rules compiler c σ).

Definition deliver_host (cb : HostCallback) (h : Hook) (i : nat) : Hook :=
  match mods h !! i with
  | Some m =>
      match queued m with
      | err :: rest =>
          Promise_all_reaction_host cb
            {| world := chmod_callback (filePath m) err (world h);
               mods := <[i := {| filePath := filePath m;
                                 promise := resolve (promise m);
                                 queued := rest |}]> (mods h);
               joined := joined h |}
      | [] => h
      end
  | None => h
  end.

Definition run_hook_host (cb : HostCallback)
    (path_join : string → string → string) (rules : list Rule)
    (compiler : Compiler) (c : Compilation) (σ : gmap nat nat)
    (schedule : list nat) : Hook :=
  fold_left (deliver_host cb) schedule
            (afterEmit_host cb path_join rules compiler c σ).

(** A callback that returns normally, and one that throws when it is
    invoked without error. *)
Definition callback_returns : HostCallback := λ _ _, None.

Definition callback_error : Error := new_Error "callback failed".

Definition callback_throws_on_success : HostCallback :=
  λ _ arg, match arg with None => Some callback_error | Some _ => None end.

(** Whether the hook finds a usable [chmod]. *)
Definition capable (compiler : Compiler) : bool :=
  match outputFileSystem compiler with
  | Some fs => bool_decide (typeof (chmod fs) = TFunction)
  | None => false
  end.

(** What [catch] adds to the world when the invocation [callback()] made in
    [then] has thrown [e]: the error entry, and the second invocation. *)
Definition caught_from_callback (e : Error) (w : World) : World :=
  call_callback (Some e) (push_error (new_Error (msg_unexpected e)) w).

(** The world of a run with the host callback [cb], given the world [w] of
    the same run with a callback that returns normally: they differ when
    the hook had a usable [chmod], reported success, and the callback threw
    on that first invocation. *)
Definition with_host_callback (cb : HostCallback) (usable : bool) (w : World)
  : World :=
  if usable then
    match callback_calls w, cb 0 None with
    | [None], Some e => caught_from_callback e w
    | _, _ => w
    end
  else w.

(** A primitive that succeeds in a later turn. *)
Definition chmod_succeeds_later : OutputFileSystem :=
  {| chmod := JSFunction "chmod";
     chmod_run := λ _ _ _, {| sync_callbacks := []; thrown := None;
                              later_callbacks := [None] |} |}.

(** The assets of the test "should handle large number of assets",
    [file0.js] to [file99.js], and the rule of that test with the regular
    expression written [/\.js$/g]. *)
Definition hundred_names : list string :=
  (λ i, "file" +:+ pretty i +:+ ".js") <$> seq 0 100.

Definition hundred_compilation : Compilation :=
  {| assets := (λ name, (name, source)) <$> hundred_names;
     warnings := []; errors := [] |}.

Definition global_rule : Rule :=
  {| permissions := JSNumber 493; patterns := [JSRegExp re_js_global] |}.

(** * Properties *)

(** ** The constructor *)

Lemma is_object_cases v :
  is_object v ↔ (∃ r, v = JSRegExp r) ∨ (∃ l, v = JSArray l) ∨ (∃ ps, v = JSObject ps).
Proof.
  unfold is_object. split.
  - intros [Ht Hn]. destruct v; simpl in Ht; try discriminate; try congruence; eauto.
  - intros [[r ->] | [[l ->] | [ps ->]]]; split; simpl; congruence.
Qed.

Lemma is_object_guard v :
  is_object v → bool_decide (typeof v ≠ TObject) || is_null v = false.
Proof.
  intros [Ht Hn]. rewrite bool_decide_eq_false_2 by (intros ?; contradiction).
  destruct v; simpl; congruence.
Qed.

Lemma is_object_dec v : is_object v ∨ ¬ is_object v.
Proof.
  destruct v; try (left; split; simpl; congruence);
    right; intros [Ht Hn]; simpl in Ht; congruence.
Qed.

Lemma not_object_guard v :
  ¬ is_object v → bool_decide (typeof v ≠ TObject) || is_null v = true.
Proof.
  intros H. destruct v; try reflexivity;
    exfalso; apply H; split; simpl; congruence.
Qed.

Lemma get_field v key : is_object v → get v key = Ok (field v key).
Proof.
  intros H. apply is_object_cases in H as [[r ->] | [[l ->] | [ps ->]]]; reflexivity.
Qed.

Lemma is_object_truthy v : is_object v → truthy v = true.
Proof.
  intros H. apply is_object_cases in H as [[r ->] | [[l ->] | [ps ->]]]; reflexivity.
Qed.

Lemma typeof_undefined v : typeof v = TUndefined ↔ v = JSUndefined.
Proof. split; [destruct v; simpl; congruence | intros ->; reflexivity]. Qed.

Lemma valid_patterns_guard v :
  bool_decide (typeof v ≠ TString) && negb (instanceof_RegExp v)
    && negb (Array_isArray v) = false ↔ valid_patterns v.
Proof.
  unfold valid_patterns. destruct v; simpl; split; intros H;
    try discriminate; try reflexivity; try tauto;
    try (destruct H as [H | [H | H]]; discriminate).
Qed.

(** What [normalize_rule] answers for a rule that passes the four checks. *)
Lemma normalize_rule_well_formed rule index :
  well_formed_rule rule → normalize_rule rule index = Ok (normalized rule).
Proof.
  intros Hwf. unfold normalize_rule.
  assert (Hobj : is_object rule).
  { destruct (is_object_dec rule) as [H | H]; [assumption|].
    destruct (Hwf NotAnObject H). }
  rewrite is_object_guard by assumption.
  rewrite !get_field by assumption. simpl.
  rewrite bool_decide_eq_false_2
    by (rewrite typeof_undefined; exact (Hwf MissingPermissions)).
  rewrite bool_decide_eq_false_2
    by (rewrite typeof_undefined; exact (Hwf MissingPatterns)).
  assert (Hv : valid_patterns (field rule "patterns")).
  { apply valid_patterns_guard.
    destruct (_ && _ && _) eqn:E; [|reflexivity].
    exfalso. apply (Hwf InvalidPatterns). intros Hv.
    apply valid_patterns_guard in Hv. congruence. }
  apply valid_patterns_guard in Hv. rewrite Hv.
  unfold normalized, pattern_list. reflexivity.
Qed.

(** What it throws for a rule with a violation. *)
Lemma normalize_rule_violation rule index v :
  first_violation rule v →
  normalize_rule rule index = Throw (new_Error (violation_message v index)).
Proof.
  intros [Hv Hfirst]. unfold normalize_rule.
  destruct v; simpl in Hv.
  - rewrite not_object_guard by assumption. reflexivity.
  - assert (Hobj : is_object rule).
    { destruct (is_object_dec rule) as [H | H]; [assumption|].
      exfalso. apply (Hfirst NotAnObject); simpl; [lia | assumption]. }
    rewrite is_object_guard, !get_field by assumption. simpl.
    rewrite Hv. reflexivity.
  - assert (Hobj : is_object rule).
    { destruct (is_object_dec rule) as [H | H]; [assumption|].
      exfalso. apply (Hfirst NotAnObject); simpl; [lia | assumption]. }
    rewrite is_object_guard, !get_field by assumption. simpl.
    rewrite bool_decide_eq_false_2
      by (rewrite typeof_undefined; apply (Hfirst MissingPermissions); simpl; lia).
    rewrite Hv. reflexivity.
  - assert (Hobj : is_object rule).
    { destruct (is_object_dec rule) as [H | H]; [assumption|].
      exfalso. apply (Hfirst NotAnObject); simpl; [lia | assumption]. }
    rewrite is_object_guard, !get_field by assumption. simpl.
    rewrite bool_decide_eq_false_2
      by (rewrite typeof_undefined; apply (Hfirst MissingPermissions); simpl; lia).
    rewrite bool_decide_eq_false_2
      by (rewrite typeof_undefined; apply (Hfirst MissingPatterns); simpl; lia).
    destruct (_ && _ && _) eqn:E; [reflexivity|].
    apply valid_patterns_guard in E. contradiction.
Qed.

Lemma rule_classification rule :
  well_formed_rule rule ∨ ∃ v, first_violation rule v.
Proof.
  destruct (is_object_dec rule) as [Hobj | Hobj].
  2: { right. exists NotAnObject. split; [exact Hobj|]. intros []; simpl; lia. }
  destruct (decide (typeof (field rule "permissions") = TUndefined)) as [Hp | Hp].
  { right. exists MissingPermissions. split.
    - simpl. by apply typeof_undefined.
    - intros []; simpl; try lia. tauto. }
  destruct (decide (typeof (field rule "patterns") = TUndefined)) as [Hq | Hq].
  { right. exists MissingPatterns. split.
    - simpl. by apply typeof_undefined.
    - intros []; simpl; try lia; [tauto|]. rewrite <- typeof_undefined. tauto. }
  destruct (bool_decide (typeof (field rule "patterns") ≠ TString)
            && negb (instanceof_RegExp (field rule "patterns"))
            && negb (Array_isArray (field rule "patterns"))) eqn:E.
  - right. exists InvalidPatterns. split.
    + simpl. rewrite <- valid_patterns_guard. congruence.
    + intros []; simpl; try lia; rewrite <- ?typeof_undefined; tauto.
  - left. intros []; simpl; rewrite <- ?typeof_undefined; try tauto.
    apply valid_patterns_guard in E. tauto.
Qed.

Lemma rules_classification (rules : list JSValue) :
  Forall well_formed_rule rules ∨
  ∃ good bad rest v, rules = good ++ bad :: rest ∧
    Forall well_formed_rule good ∧ first_violation bad v.
Proof.
  induction rules as [| rule rules IH].
  - left. constructor.
  - destruct (rule_classification rule) as [Hwf | [v Hv]].
    + destruct IH as [IH | (good & bad & rest & v & -> & Hgood & Hbad)].
      * left. by constructor.
      * right. exists (rule :: good), bad, rest, v.
        split; [done|]. split; [by constructor | done].
    + right. exists [], rule, rules, v.
        split; [done|]. split; [constructor | done].
Qed.

Lemma Array_map_well_formed n (rules : list JSValue) :
  Forall well_formed_rule rules →
  Array_map normalize_rule n rules = Ok (map normalized rules).
Proof.
  intros H. revert n. induction H as [| rule rules Hwf _ IH]; intros n.
  - reflexivity.
  - simpl. rewrite normalize_rule_well_formed by assumption. simpl.
    rewrite IH. reflexivity.
Qed.

Lemma Array_map_first_violation n (good : list JSValue) bad rest v :
  Forall well_formed_rule good →
  first_violation bad v →
  Array_map normalize_rule n (good ++ bad :: rest)
  = Throw (new_Error (violation_message v (n + length good))).
Proof.
  intros H Hbad. revert n. induction H as [| rule rules Hwf _ IH]; intros n.
  - simpl. rewrite (normalize_rule_violation _ _ v) by assumption.
    simpl. by rewrite Nat.add_0_r.
  - simpl. rewrite normalize_rule_well_formed by assumption. simpl.
    rewrite IH. simpl. by rewrite Nat.add_succ_r.
Qed.

Lemma constructor_object options :
  is_object options →
  constructor options =
    match field options "rules" with
    | JSArray rules => Array_map normalize_rule 0 rules
    | _ => Throw (new_Error msg_rules_not_array)
    end.
Proof.
  intros H. unfold constructor.
  rewrite is_object_truthy by assumption. simpl.
  rewrite is_object_guard, get_field by assumption. reflexivity.
Qed.

Lemma constructor_not_object options :
  ¬ is_object options → constructor options = Throw (new_Error msg_options_required).
Proof.
  intros H. unfold constructor.
  rewrite <- orb_assoc, not_object_guard by assumption.
  by rewrite orb_true_r.
Qed.

(** A configuration is accepted, with the normalised rules as the rule set,
    or it is one of the invalid configurations. *)
Lemma constructor_classification options :
  (∃ rules, is_object options ∧ field options "rules" = JSArray rules ∧
            Forall well_formed_rule rules ∧
            constructor options = Ok (map normalized rules))
  ∨ (∃ msg, rejected_with options msg).
Proof.
  destruct (is_object_dec options) as [Hobj | Hobj].
  2: { right. eexists. by apply rejected_options. }
  destruct (field options "rules") as [| | | | | | | | | rules |] eqn:E;
    try (right; eexists; apply rejected_rules; [done | by rewrite E]).
  destruct (rules_classification rules)
    as [Hwf | (good & bad & rest & v & -> & Hgood & Hbad)].
  - left. exists rules. split; [done|]. split; [done|]. split; [done|].
    rewrite constructor_object, E by assumption.
    by apply Array_map_well_formed.
  - right. eexists. by eapply rejected_rule.
Qed.

Lemma constructor_throws options msg :
  rejected_with options msg →
  constructor options = Throw (new_Error msg).
Proof.
  intros [o Ho | o Ho Hr | o good bad rest v Ho Hr Hgood Hbad].
  - by apply constructor_not_object.
  - rewrite constructor_object by assumption.
    destruct (field o "rules"); try reflexivity. discriminate.
  - rewrite constructor_object, Hr by assumption.
    by rewrite (Array_map_first_violation 0 good bad rest v).
Qed.

Lemma constructor_Ok_inv options rs :
  constructor options = Ok rs →
  ∃ rules, is_object options ∧ field options "rules" = JSArray rules ∧
           Forall well_formed_rule rules ∧ rs = map normalized rules.
Proof.
  intros H.
  destruct (constructor_classification options)
    as [(rules & Ho & Hr & Hwf & E) | [msg Hrej]].
  - exists rules. rewrite E in H. injection H as <-. done.
  - apply constructor_throws in Hrej. congruence.
Qed.

Lemma Array_map_replace {A B : Type} (f : A → nat → result B) n
    (before : list A) x y after :
  f x (n + length before) = f y (n + length before) →
  Array_map f n (before ++ x :: after) = Array_map f n (before ++ y :: after).
Proof.
  revert n. induction before as [| b before IH]; intros n H; simpl in *.
  - rewrite Nat.add_0_r in H. by rewrite H.
  - destruct (f b n); [|reflexivity]. simpl.
    rewrite (IH (S n)); [reflexivity|].
    by rewrite Nat.add_succ_r in H.
Qed.

Lemma normalize_rule_object rule index :
  is_object rule →
  normalize_rule rule index =
    if bool_decide (typeof (field rule "permissions") = TUndefined) then
      Throw (new_Error (msg_permissions_required index))
    else if bool_decide (typeof (field rule "patterns") = TUndefined) then
      Throw (new_Error (msg_patterns_required index))
    else if bool_decide (typeof (field rule "patterns") ≠ TString)
            && negb (instanceof_RegExp (field rule "patterns"))
            && negb (Array_isArray (field rule "patterns")) then
      Throw (new_Error (msg_patterns_invalid index))
    else Ok (normalized rule).
Proof.
  intros H. unfold normalize_rule.
  rewrite is_object_guard, !get_field by assumption. reflexivity.
Qed.

(** A rule with a single pattern and the rule with the one-element array
    of that pattern are normalised alike. *)
Lemma normalize_rule_single rule1 rule2 p index :
  is_object rule1 → is_object rule2 →
  field rule1 "permissions" = field rule2 "permissions" →
  typeof p = TString ∨ instanceof_RegExp p = true →
  field rule1 "patterns" = p →
  field rule2 "patterns" = JSArray [p] →
  normalize_rule rule1 index = normalize_rule rule2 index.
Proof.
  intros H1 H2 Hperm Hp Hp1 Hp2.
  rewrite !normalize_rule_object by assumption.
  unfold normalized. rewrite Hperm, Hp1, Hp2.
  destruct (bool_decide _); [reflexivity|].
  destruct p; simpl in Hp; destruct Hp; try discriminate; reflexivity.
Qed.

(** ** Rule matching *)

Lemma pattern_matches_unusable assetName pattern σ :
  usable_pattern pattern = false →
  pattern_matches assetName pattern σ = (false, σ).
Proof. destruct pattern; simpl; try reflexivity; discriminate. Qed.

(** Patterns that are neither strings nor regular expressions can be erased
    from a pattern list: the answer of [some] and the store are the same. *)
Lemma Array_some_usable assetName (ps : list JSValue) σ :
  Array_some (pattern_matches assetName) ps σ
  = Array_some (pattern_matches assetName) (List.filter usable_pattern ps) σ.
Proof.
  revert σ. induction ps as [| p ps IH]; intros σ; [reflexivity|].
  simpl. destruct (usable_pattern p) eqn:E.
  - simpl. destruct (pattern_matches assetName p σ) as [[] σ']; [reflexivity|].
    apply IH.
  - rewrite pattern_matches_unusable by assumption. apply IH.
Qed.

(** [some] answers [true] exactly when it meets an accepted element, and
    stops there. *)
Lemma Array_some_true {A : Type} (f : A → Matching bool) (l : list A) σ σ' :
  Array_some f l σ = (true, σ') ↔
  ∃ pre x post σ1, l = pre ++ x :: post ∧
    Array_some f pre σ = (false, σ1) ∧ f x σ1 = (true, σ').
Proof.
  revert σ. induction l as [| y l IH]; intros σ; simpl.
  - split; [discriminate|]. intros (pre & x & post & σ1 & E & _).
    by destruct pre.
  - destruct (f y σ) as [[] σy] eqn:Ey.
    + split.
      * intros [= <-]. exists [], y, l, σ. by repeat split.
      * intros (pre & x & post & σ1 & E & Hpre & Hx).
        destruct pre as [| z pre]; simpl in *.
        -- injection E as -> ->. injection Hpre as <-. congruence.
        -- injection E as -> ->. rewrite Ey in Hpre. discriminate.
    + rewrite IH. split.
      * intros (pre & x & post & σ1 & -> & Hpre & Hx).
        exists (y :: pre), x, post, σ1. simpl. rewrite Ey. by repeat split.
      * intros (pre & x & post & σ1 & E & Hpre & Hx).
        destruct pre as [| z pre]; simpl in *.
        -- injection E as -> ->. injection Hpre as <-. congruence.
        -- injection E as -> ->. rewrite Ey in Hpre.
           exists pre, x, post, σ1. by repeat split.
Qed.

(** [find] answers the first accepted element; the elements after it are
    not visited. *)
Lemma Array_find_Some {A : Type} (f : A → Matching bool) (l : list A) x σ σ' :
  Array_find f l σ = (Some x, σ') →
  ∃ pre post σ1, l = pre ++ x :: post ∧
    Array_find f pre σ = (None, σ1) ∧ f x σ1 = (true, σ').
Proof.
  revert σ. induction l as [| y l IH]; intros σ; simpl; [discriminate|].
  destruct (f y σ) as [[] σy] eqn:Ey.
  - intros [= <- <-]. exists [], l, σ. by repeat split.
  - intros H. apply IH in H as (pre & post & σ1 & -> & Hpre & Hx).
    exists (y :: pre), post, σ1. simpl. rewrite Ey. by repeat split.
Qed.

Lemma Array_find_first {A : Type} (f : A → Matching bool) pre x post σ σ1 σ' :
  Array_find f pre σ = (None, σ1) →
  f x σ1 = (true, σ') →
  Array_find f (pre ++ x :: post) σ = (Some x, σ').
Proof.
  revert σ. induction pre as [| y pre IH]; intros σ; simpl.
  - intros [= <-] Hx. by rewrite Hx.
  - destruct (f y σ) as [[] σy]; [discriminate|]. apply IH.
Qed.

Lemma RegExp_test_stateless r assetName σ :
  re_global r = false → re_sticky r = false →
  RegExp_test r assetName σ = (satisfies r assetName, σ).
Proof.
  intros Hg Hy. unfold RegExp_test, satisfies. rewrite Hg, Hy. cbn [orb].
  rewrite Nat.sub_0_r.
  destruct (search _ _ _ _) eqn:E.
  - rewrite bool_decide_eq_true_2; eauto.
  - rewrite bool_decide_eq_false_2; [done|]. by intros [? ?].
Qed.

Lemma pattern_matches_stateless assetName pattern σ :
  stateless pattern →
  pattern_matches assetName pattern σ = (matches assetName pattern, σ).
Proof.
  destruct pattern; simpl; try reflexivity.
  intros [Hg Hy]. by apply RegExp_test_stateless.
Qed.

Lemma Array_some_stateless assetName (ps : list JSValue) σ :
  Forall stateless ps →
  Array_some (pattern_matches assetName) ps σ
  = (existsb (matches assetName) ps, σ).
Proof.
  induction 1 as [| p ps Hp _ IH]; simpl; [reflexivity|].
  rewrite pattern_matches_stateless by assumption.
  destruct (matches assetName p); [reflexivity | exact IH].
Qed.

(** For rules whose regular expressions carry neither [g] nor [y], the rule
    found is the match result of the specification, and no [lastIndex]
    changes. *)
Lemma matchingRule_stateless (rules : list Rule) assetName σ :
  Forall (λ rule, Forall stateless (patterns rule)) rules →
  matchingRule rules assetName σ = (first_match rules assetName, σ).
Proof.
  unfold matchingRule, first_match.
  induction 1 as [| rule rules Hr _ IH]; simpl; [reflexivity|].
  rewrite Array_some_stateless by assumption.
  destruct (existsb _ _); [reflexivity | exact IH].
Qed.

(** ** The hook, up to its return *)

Section AfterEmit.

Variable path_join : string → string → string.
Variable rules : list Rule.
Variable fs : OutputFileSystem.
Variable outputPath : string.

Lemma fold_chmod_callback path (l : list (option Error)) a ws es σ calls cbs :
  fold_left (λ w err, chmod_callback path err w) l
            (mkWorld (mkCompilation a ws es) σ calls cbs)
  = mkWorld (mkCompilation a (ws ++ omap (warning_of path) l) es) σ calls cbs.
Proof.
  revert ws. induction l as [| [e |] l IH]; intros ws; simpl.
  - by rewrite app_nil_r.
  - unfold push_warning. simpl. rewrite IH. by rewrite <- app_assoc.
  - apply IH.
Qed.

Lemma fold_resolve (l : list (option Error)) :
  fold_left (λ p _, resolve p) l Fulfilled = Fulfilled.
Proof. induction l; simpl; auto. Qed.

Lemma new_Promise_spec assetName rule a ws es σ calls cbs :
  let o := {| op_path := path_join outputPath assetName;
              op_mode := permissions rule;
              op_run := chmod_run fs (length calls)
                          (path_join outputPath assetName) (permissions rule) |} in
  new_Promise path_join fs outputPath assetName rule
              (mkWorld (mkCompilation a ws es) σ calls cbs)
  = (mod_of_op o,
     mkWorld (mkCompilation a (ws ++ op_sync_warnings o) es) σ
             (calls ++ [(op_path o, op_mode o)]) cbs).
Proof.
  intros o. unfold new_Promise, record_chmod. simpl.
  rewrite fold_chmod_callback. f_equal.
  unfold mod_of_op, op_promise. simpl. f_equal.
  destruct (sync_callbacks _) as [| c l]; simpl.
  - destruct (thrown _); reflexivity.
  - rewrite fold_resolve. destruct (thrown _); reflexivity.
Qed.

Lemma matched_assets_cons assetName rest σ :
  matched_assets rules (assetName :: rest) σ
  = match (matchingRule rules assetName σ).1 with
    | Some rule => [(assetName, rule)]
    | None => []
    end ++ matched_assets rules rest (matchingRule rules assetName σ).2.
Proof.
  unfold matched_assets. simpl.
  destruct (matchingRule rules assetName σ) as [found σ1]. simpl.
  destruct (resolve_assets rules rest σ1) as [results σ2]. simpl.
  destruct found; reflexivity.
Qed.

Lemma resolve_assets_cons_store assetName rest σ :
  (resolve_assets rules (assetName :: rest) σ).2
  = (resolve_assets rules rest (matchingRule rules assetName σ).2).2.
Proof.
  simpl. destruct (matchingRule rules assetName σ) as [found σ1]. simpl.
  destruct (resolve_assets rules rest σ1) as [results σ2]. reflexivity.
Qed.

(** The synchronous part of the hook: one call per matched asset, in the
    order of the asset names, with the joined path and the permissions of
    the rule found; the promises are those of the operations; the warnings
    of the invocations made inside the calls are appended; nothing else
    changes. *)
Lemma map_assets_spec assetNames a ws es σ calls cbs :
  let ops := operations path_join fs outputPath (length calls)
               (matched_assets rules assetNames σ) in
  ∃ promises,
    map_assets path_join rules fs outputPath assetNames
               (mkWorld (mkCompilation a ws es) σ calls cbs)
    = (promises,
       mkWorld (mkCompilation a (ws ++ (ops ≫= op_sync_warnings)) es)
               (resolve_assets rules assetNames σ).2
               (calls ++ map (λ o, (op_path o, op_mode o)) ops) cbs)
    ∧ omap id promises = map mod_of_op ops.
Proof.
  revert ws σ calls.
  induction assetNames as [| assetName rest IH]; intros ws σ calls ops.
  - exists []. subst ops. simpl. by rewrite !app_nil_r.
  - subst ops. rewrite matched_assets_cons, resolve_assets_cons_store.
    cbn [map_assets]. unfold mod_of_asset. cbn [lastIndexes].
    destruct (matchingRule rules assetName σ) as [[rule |] σ1]; cbn [fst snd].
    + unfold set_lastIndexes.
      cbn [compilation lastIndexes chmod_calls callback_calls].
      rewrite new_Promise_spec.
      set (o := {| op_path := path_join outputPath assetName |}).
      destruct (IH (ws ++ op_sync_warnings o) σ1 (calls ++ [(op_path o, op_mode o)]))
        as (promises & E & Hmods).
      rewrite E. exists (Some (mod_of_op o) :: promises).
      rewrite length_app, Nat.add_1_r in *. split.
      * f_equal. cbn [app operations]. fold o. rewrite bind_cons.
        cbn [map]. rewrite <- !app_assoc. reflexivity.
      * cbn [app operations omap list_omap id]. fold o. rewrite Hmods.
        reflexivity.
    + unfold set_lastIndexes.
      cbn [compilation lastIndexes chmod_calls callback_calls].
      destruct (IH ws σ1 calls) as (promises & E & Hmods).
      rewrite E. exists (None :: promises). split; [reflexivity | exact Hmods].
Qed.

End AfterEmit.

(** ** The reaction to [Promise.all] and the later invocations *)

Lemma Promise_all_reaction_mods h : mods (Promise_all_reaction h) = mods h.
Proof.
  unfold Promise_all_reaction. repeat case_match; reflexivity.
Qed.

Lemma Promise_all_reaction_warnings h :
  warnings (compilation (world (Promise_all_reaction h)))
  = warnings (compilation (world h)).
Proof.
  unfold Promise_all_reaction. repeat case_match; reflexivity.
Qed.

Lemma Promise_all_reaction_frame h :
  chmod_calls (world (Promise_all_reaction h)) = chmod_calls (world h) ∧
  lastIndexes (world (Promise_all_reaction h)) = lastIndexes (world h) ∧
  assets (compilation (world (Promise_all_reaction h)))
  = assets (compilation (world h)).
Proof.
  unfold Promise_all_reaction. repeat case_match; done.
Qed.

Lemma chmod_callback_frame path err w :
  chmod_calls (chmod_callback path err w) = chmod_calls w ∧
  lastIndexes (chmod_callback path err w) = lastIndexes w ∧
  assets (compilation (chmod_callback path err w)) = assets (compilation w) ∧
  errors (compilation (chmod_callback path err w)) = errors (compilation w) ∧
  callback_calls (chmod_callback path err w) = callback_calls w.
Proof. destruct err; done. Qed.

Lemma chmod_callback_warnings path err w :
  warnings (compilation (chmod_callback path err w))
  = warnings (compilation w) ++ option_list (warning_of path err).
Proof. destruct err; simpl; [reflexivity | by rewrite app_nil_r]. Qed.

(** The calls to [chmod] and the regular expressions are those of the
    synchronous part: later turns issue nothing and match nothing. *)
Lemma deliver_frame h i :
  chmod_calls (world (deliver h i)) = chmod_calls (world h) ∧
  lastIndexes (world (deliver h i)) = lastIndexes (world h) ∧
  assets (compilation (world (deliver h i))) = assets (compilation (world h)).
Proof.
  unfold deliver. destruct (mods h !! i) as [m |]; [|done].
  destruct (queued m) as [| err rest]; [done|].
  destruct (Promise_all_reaction_frame
    {| world := chmod_callback (filePath m) err (world h);
       mods := <[i:={| filePath := filePath m; promise := resolve (promise m);
                       queued := rest |}]> (mods h);
       joined := joined h |}) as (-> & -> & ->).
  simpl. destruct (chmod_callback_frame (filePath m) err (world h))
    as (-> & -> & -> & _). done.
Qed.

Lemma fold_deliver_frame schedule h :
  chmod_calls (world (fold_left deliver schedule h)) = chmod_calls (world h) ∧
  lastIndexes (world (fold_left deliver schedule h)) = lastIndexes (world h) ∧
  assets (compilation (world (fold_left deliver schedule h)))
  = assets (compilation (world h)).
Proof.
  revert h. induction schedule as [| i schedule IH]; intros h; [done|].
  simpl. destruct (IH (deliver h i)) as (-> & -> & ->). apply deliver_frame.
Qed.

(** An invariant of the single steps is an invariant of every schedule. *)
Lemma fold_deliver_invariant (I : Hook → Prop) :
  (∀ h i, I h → I (deliver h i)) →
  ∀ schedule h, I h → I (fold_left deliver schedule h).
Proof.
  intros Hstep schedule. induction schedule as [| i schedule IH]; intros h Hh.
  - exact Hh.
  - simpl. apply IH, Hstep, Hh.
Qed.

(** A property of the elements of [mods] that survives the delivery of an
    invocation holds of all of them at all times. *)
Lemma deliver_Forall (P : Mod → Prop) h i :
  (∀ m err rest, P m → queued m = err :: rest →
     P {| filePath := filePath m; promise := resolve (promise m);
          queued := rest |}) →
  Forall P (mods h) → Forall P (mods (deliver h i)).
Proof.
  intros Hpop HP. unfold deliver.
  destruct (mods h !! i) as [m |] eqn:Hi; [|done].
  destruct (queued m) as [| err rest] eqn:Hq; [done|].
  rewrite Promise_all_reaction_mods. simpl.
  apply Forall_insert; [done|].
  apply (Hpop m err rest); [|done].
  eapply Forall_lookup_1; eauto.
Qed.

Lemma first_rejection_resolve (ms : list Mod) i m rest :
  ms !! i = Some m →
  first_rejection (<[i:={| filePath := filePath m; promise := resolve (promise m);
                           queued := rest |}]> ms)
  = first_rejection ms.
Proof.
  revert i. induction ms as [| m0 ms IH]; intros i Hi; [done|].
  destruct i as [| i]; simpl in *.
  - injection Hi as ->. destruct (promise m); reflexivity.
  - rewrite (IH i Hi). reflexivity.
Qed.

Lemma forallb_fulfilled_resolve (ms : list Mod) i m rest :
  ms !! i = Some m →
  forallb (λ m, is_fulfilled (promise m)) ms = true →
  forallb (λ m, is_fulfilled (promise m))
    (<[i:={| filePath := filePath m; promise := resolve (promise m);
             queued := rest |}]> ms) = true.
Proof.
  revert i. induction ms as [| m0 ms IH]; intros i Hi; [done|].
  destruct i as [| i]; simpl in *.
  - injection Hi as ->. destruct (promise m); simpl; done.
  - intros [H0 H]%andb_true_iff. rewrite H0. simpl. by apply IH.
Qed.

(** With a rejected promise, the error is recorded once and the callback
    gets it; no later invocation changes that. *)
Lemma deliver_rejected e es h i :
  (first_rejection (mods h) = Some e ∧ joined h = true ∧
   errors (compilation (world h)) = es ∧ callback_calls (world h) = [Some e]) →
  (first_rejection (mods (deliver h i)) = Some e ∧ joined (deliver h i) = true ∧
   errors (compilation (world (deliver h i))) = es ∧
   callback_calls (world (deliver h i)) = [Some e]).
Proof.
  intros (Hr & Hj & He & Hc). unfold deliver.
  destruct (mods h !! i) as [m |] eqn:Hi; [|done].
  destruct (queued m) as [| err rest] eqn:Hq; [done|].
  unfold Promise_all_reaction. simpl. rewrite Hj. simpl.
  rewrite first_rejection_resolve by assumption.
  destruct (chmod_callback_frame (filePath m) err (world h))
    as (_ & _ & _ & -> & ->). done.
Qed.

(** Without a rejected promise, the callback is invoked, without argument,
    as soon as every promise is fulfilled, once, and no error is recorded. *)
Lemma deliver_not_rejected es h i :
  (first_rejection (mods h) = None ∧
   errors (compilation (world h)) = es ∧
   joined h = forallb (λ m, is_fulfilled (promise m)) (mods h) ∧
   callback_calls (world h) = if joined h then [None] else []) →
  (first_rejection (mods (deliver h i)) = None ∧
   errors (compilation (world (deliver h i))) = es ∧
   joined (deliver h i)
   = forallb (λ m, is_fulfilled (promise m)) (mods (deliver h i)) ∧
   callback_calls (world (deliver h i))
   = if joined (deliver h i) then [None] else []).
Proof.
  intros (Hr & He & Hj & Hc). unfold deliver.
  destruct (mods h !! i) as [m |] eqn:Hi; [|done].
  destruct (queued m) as [| err rest] eqn:Hq; [done|].
  unfold Promise_all_reaction. simpl.
  destruct (chmod_callback_frame (filePath m) err (world h))
    as (_ & _ & _ & He' & Hc').
  destruct (joined h) eqn:Ej; simpl.
  - rewrite first_rejection_resolve by assumption.
    rewrite forallb_fulfilled_resolve by done.
    rewrite He', Hc'. done.
  - rewrite first_rejection_resolve, Hr by assumption.
    destruct (forallb _ (<[i:=_]> (mods h))) eqn:Ef; simpl;
      rewrite ?first_rejection_resolve, ?Ef, ?He', ?Hc', ?Hc, ?Hr by assumption;
      done.
Qed.

Lemma omap_warning_cons path err (rest : list (option Error)) :
  omap (warning_of path) (err :: rest)
  = option_list (warning_of path err) ++ omap (warning_of path) rest.
Proof. destruct err; reflexivity. Qed.

Lemma pending_warnings_cons m (ms : list Mod) :
  pending_warnings (m :: ms)
  = omap (warning_of (filePath m)) (queued m) ++ pending_warnings ms.
Proof. reflexivity. Qed.

#[local] Arguments pending_warnings : simpl never.

Lemma pending_warnings_insert (ms : list Mod) i m err rest :
  ms !! i = Some m →
  queued m = err :: rest →
  Permutation (pending_warnings ms)
    (option_list (warning_of (filePath m) err) ++
     pending_warnings (<[i:={| filePath := filePath m;
                               promise := resolve (promise m);
                               queued := rest |}]> ms)).
Proof.
  revert i. induction ms as [| m0 ms IH]; intros i Hi Hq; [done|].
  destruct i as [| i]; simpl in Hi.
  - injection Hi as ->. simpl. rewrite !pending_warnings_cons.
    cbn [filePath queued]. rewrite Hq, omap_warning_cons. by rewrite app_assoc.
  - simpl. rewrite !pending_warnings_cons.
    rewrite (IH i Hi Hq) at 1.
    rewrite !app_assoc. apply Permutation_app_tail, Permutation_app_comm.
Qed.

(** The warnings recorded so far and the warnings still owed are, together,
    those of all the errors passed to the callbacks; the list of warnings
    only grows at its end. *)
Lemma deliver_warnings ws0 total h i :
  (∃ W, warnings (compilation (world h)) = ws0 ++ W ∧
        Permutation (W ++ pending_warnings (mods h)) total) →
  (∃ W, warnings (compilation (world (deliver h i))) = ws0 ++ W ∧
        Permutation (W ++ pending_warnings (mods (deliver h i))) total).
Proof.
  intros (W & HW & HP). unfold deliver.
  destruct (mods h !! i) as [m |] eqn:Hi; [|by exists W].
  destruct (queued m) as [| err rest] eqn:Hq; [by exists W|].
  rewrite Promise_all_reaction_warnings, Promise_all_reaction_mods. simpl.
  rewrite chmod_callback_warnings, HW.
  exists (W ++ option_list (warning_of (filePath m) err)). split.
  - by rewrite app_assoc.
  - rewrite <- HP, <- app_assoc. apply Permutation_app_head.
    symmetry. by apply pending_warnings_insert.
Qed.

(** ** The whole run of the hook *)

Section RunHook.

Variable path_join : string → string → string.
Variable rules : list Rule.
Variable compiler : Compiler.
Variable c : Compilation.
Variable σ : gmap nat nat.
Variable fs : OutputFileSystem.

Hypothesis has_fs : outputFileSystem compiler = Some fs.
Hypothesis chmod_is_function : typeof (chmod fs) = TFunction.

#[local] Abbreviation ops := (run_operations path_join rules compiler fs c σ).

Lemma afterEmit_with_chmod :
  afterEmit path_join rules compiler c σ
  = Promise_all_reaction
      {| world :=
           mkWorld (mkCompilation (assets c)
                      (warnings c ++ (ops ≫= op_sync_warnings)) (errors c))
                   (resolve_assets rules (Object_keys (assets c)) σ).2
                   (map (λ o, (op_path o, op_mode o)) ops) [];
         mods := map mod_of_op ops;
         joined := false |}.
Proof.
  unfold afterEmit. rewrite has_fs.
  rewrite bool_decide_eq_false_2 by (intros H; by apply H).
  destruct c as [a ws es]. cbn [assets warnings errors] in *.
  destruct (map_assets_spec path_join rules fs (output_path compiler)
              (Object_keys a) a ws es σ [] []) as (promises & -> & ->).
  reflexivity.
Qed.

Lemma pending_warnings_ops (l : list Operation) :
  pending_warnings (map mod_of_op l)
  = l ≫= (λ o, omap (warning_of (op_path o)) (later_callbacks (op_run o))).
Proof.
  induction l as [| o l IH]; [reflexivity|].
  cbn [map]. rewrite pending_warnings_cons, IH. reflexivity.
Qed.

Lemma op_warnings_split (l : list Operation) :
  Permutation
    ((l ≫= op_sync_warnings) ++
     (l ≫= (λ o, omap (warning_of (op_path o)) (later_callbacks (op_run o)))))
    (l ≫= op_warnings).
Proof.
  induction l as [| o l IH]; [reflexivity|].
  rewrite !bind_cons. unfold op_warnings at 1, op_callbacks.
  rewrite omap_app. fold (op_sync_warnings o).
  rewrite <- IH, <- !app_assoc. apply Permutation_app_head.
  rewrite !app_assoc. apply Permutation_app_tail, Permutation_app_comm.
Qed.

(** The calls made to [chmod], whatever the primitive does and whatever is
    delivered later: one per matched asset, in the order of the asset names,
    with the joined path and the permissions of the rule. *)
Lemma run_hook_chmod_calls schedule :
  chmod_calls (world (run_hook path_join rules compiler c σ schedule))
  = map (λ o, (op_path o, op_mode o)) ops.
Proof.
  unfold run_hook.
  destruct (fold_deliver_frame schedule (afterEmit path_join rules compiler c σ))
    as (-> & _).
  rewrite afterEmit_with_chmod.
  by destruct (Promise_all_reaction_frame
    {| world := mkWorld (mkCompilation (assets c)
                  (warnings c ++ (ops ≫= op_sync_warnings)) (errors c))
                  (resolve_assets rules (Object_keys (assets c)) σ).2
                  (map (λ o, (op_path o, op_mode o)) ops) [];
       mods := map mod_of_op ops; joined := false |}) as (-> & _).
Qed.

(** The warnings of the run are appended to those of the compilation, and
    are, with those still owed, the warnings of the errors the primitive
    passes to the callbacks. *)
Lemma run_hook_warnings schedule :
  ∃ W, warnings (compilation (world (run_hook path_join rules compiler c σ schedule)))
       = warnings c ++ W ∧
       Permutation
         (W ++ pending_warnings
                 (mods (run_hook path_join rules compiler c σ schedule)))
         (ops ≫= op_warnings).
Proof.
  unfold run_hook.
  apply (fold_deliver_invariant
           (λ h, ∃ W, warnings (compilation (world h)) = warnings c ++ W ∧
                      Permutation (W ++ pending_warnings (mods h))
                                  (ops ≫= op_warnings))).
  - intros h i. apply deliver_warnings.
  - rewrite afterEmit_with_chmod.
    rewrite Promise_all_reaction_warnings, Promise_all_reaction_mods. simpl.
    exists (ops ≫= op_sync_warnings). split; [reflexivity|].
    rewrite pending_warnings_ops. apply op_warnings_split.
Qed.

(** A rejected promise: one error is recorded, and the callback gets the
    reason of the first rejected promise. *)
Lemma run_hook_rejected e schedule :
  first_rejection (map mod_of_op ops) = Some e →
  errors (compilation (world (run_hook path_join rules compiler c σ schedule)))
  = errors c ++ [new_Error (msg_unexpected e)] ∧
  callback_calls (world (run_hook path_join rules compiler c σ schedule))
  = [Some e].
Proof.
  intros Hr. unfold run_hook.
  enough (H : first_rejection
                (mods (fold_left deliver schedule
                         (afterEmit path_join rules compiler c σ))) = Some e ∧
              joined (fold_left deliver schedule
                        (afterEmit path_join rules compiler c σ)) = true ∧
              errors (compilation (world (fold_left deliver schedule
                        (afterEmit path_join rules compiler c σ))))
              = errors c ++ [new_Error (msg_unexpected e)] ∧
              callback_calls (world (fold_left deliver schedule
                        (afterEmit path_join rules compiler c σ))) = [Some e])
    by (destruct H as (_ & _ & ? & ?); done).
  apply (fold_deliver_invariant
           (λ h, first_rejection (mods h) = Some e ∧ joined h = true ∧
                 errors (compilation (world h))
                 = errors c ++ [new_Error (msg_unexpected e)] ∧
                 callback_calls (world h) = [Some e])).
  - intros h i. apply deliver_rejected.
  - rewrite afterEmit_with_chmod. unfold Promise_all_reaction. simpl.
    rewrite Hr. simpl. done.
Qed.

(** No rejected promise: no error is recorded, and the callback is invoked
    (once, without argument) exactly when every promise is fulfilled. *)
Lemma run_hook_not_rejected schedule :
  first_rejection (map mod_of_op ops) = None →
  let h := run_hook path_join rules compiler c σ schedule in
  errors (compilation (world h)) = errors c ∧
  callback_calls (world h)
  = if forallb (λ m, is_fulfilled (promise m)) (mods h) then [None] else [].
Proof.
  intros Hr h. subst h. unfold run_hook.
  enough (H : first_rejection
                (mods (fold_left deliver schedule
                         (afterEmit path_join rules compiler c σ))) = None ∧
              errors (compilation (world (fold_left deliver schedule
                        (afterEmit path_join rules compiler c σ))))
              = errors c ∧
              joined (fold_left deliver schedule
                        (afterEmit path_join rules compiler c σ))
              = forallb (λ m, is_fulfilled (promise m))
                  (mods (fold_left deliver schedule
                           (afterEmit path_join rules compiler c σ))) ∧
              callback_calls (world (fold_left deliver schedule
                        (afterEmit path_join rules compiler c σ)))
              = if joined (fold_left deliver schedule
                             (afterEmit path_join rules compiler c σ))
                then [None] else [])
    by (destruct H as (_ & ? & Hj & Hc); rewrite <- Hj; done).
  apply (fold_deliver_invariant
           (λ h, first_rejection (mods h) = None ∧
                 errors (compilation (world h)) = errors c ∧
                 joined h = forallb (λ m, is_fulfilled (promise m)) (mods h) ∧
                 callback_calls (world h) = if joined h then [None] else [])).
  - intros h i. apply deliver_not_rejected.
  - rewrite afterEmit_with_chmod. unfold Promise_all_reaction. simpl.
    rewrite Hr. destruct (forallb _ _) eqn:Ef; simpl; rewrite ?Hr, ?Ef; done.
Qed.

(** A property of the promises that holds when the hook returns and
    survives deliveries holds after every schedule. *)
Lemma run_hook_mods (P : Mod → Prop) schedule :
  (∀ m err rest, P m → queued m = err :: rest →
     P {| filePath := filePath m; promise := resolve (promise m);
          queued := rest |}) →
  Forall (λ o, P (mod_of_op o)) ops →
  Forall P (mods (run_hook path_join rules compiler c σ schedule)).
Proof.
  intros Hpop H0. unfold run_hook.
  apply (fold_deliver_invariant (λ h, Forall P (mods h))).
  - intros h i. by apply deliver_Forall.
  - rewrite afterEmit_with_chmod, Promise_all_reaction_mods. simpl.
    by apply Forall_map.
Qed.

End RunHook.

(** ** The hook without a usable [chmod] *)

Lemma fold_deliver_no_mods schedule h :
  mods h = [] → fold_left deliver schedule h = h.
Proof.
  intros H. induction schedule as [| i schedule IH]; [reflexivity|].
  simpl. unfold deliver at 2. rewrite H. simpl. exact IH.
Qed.

Lemma run_hook_without_chmod path_join rules compiler c σ schedule :
  (outputFileSystem compiler = None ∨
   ∃ fs, outputFileSystem compiler = Some fs ∧ typeof (chmod fs) ≠ TFunction) →
  run_hook path_join rules compiler c σ schedule
  = skip_without_chmod (mkWorld c σ [] []).
Proof.
  intros H. unfold run_hook.
  assert (E : afterEmit path_join rules compiler c σ
              = skip_without_chmod (mkWorld c σ [] [])).
  { unfold afterEmit. destruct H as [-> | (fs & -> & Hf)]; [reflexivity|].
    by rewrite bool_decide_eq_true_2. }
  rewrite E. by apply fold_deliver_no_mods.
Qed.

(** C4. When the compiler has no output file system, or one whose [chmod]
    is not a function, the hook calls no [chmod], records exactly one
    warning, the fixed message that the output file system does not support
    'chmod' and that permission changes are skipped, records no error, and
    invokes the callback once, without error; no rule is consulted. *)
Theorem no_chmod_one_warning path_join rules compiler c σ schedule :
  (outputFileSystem compiler = None ∨
   ∃ fs, outputFileSystem compiler = Some fs ∧ typeof (chmod fs) ≠ TFunction) →
  let h := run_hook path_join rules compiler c σ schedule in
  chmod_calls (world h) = [] ∧
  warnings (compilation (world h)) = warnings c ++ [new_Error msg_no_chmod] ∧
  errors (compilation (world h)) = errors c ∧
  callback_calls (world h) = [None] ∧
  lastIndexes (world h) = σ.
Proof.
  intros H h. subst h. rewrite run_hook_without_chmod by assumption. done.
Qed.

Lemma no_chmod_one_warning_witness :
  let h := run_hook posix_join scenario_rules (scenario_compiler (Some no_chmod))
             scenario_compilation ∅ [] in
  chmod_calls (world h) = [] ∧
  warnings (compilation (world h))
  = [new_Error ("SetFilePermissionsPlugin: The output file system does not "
                +:+ "support 'chmod'. Skipping permission changes.")] ∧
  errors (compilation (world h)) = [] ∧
  callback_calls (world h) = [None] ∧
  lastIndexes (world h) = ∅.
Proof.
  apply (no_chmod_one_warning posix_join scenario_rules
           (scenario_compiler (Some no_chmod)) scenario_compilation ∅ []).
  right. exists no_chmod. split; [reflexivity | discriminate].
Defined.

(** ** The hook with a usable [chmod] *)

Lemma operations_calls path_join fs outputPath n (matched : list (string * Rule)) :
  map (λ o, (op_path o, op_mode o)) (operations path_join fs outputPath n matched)
  = map (λ '(assetName, rule), (path_join outputPath assetName, permissions rule))
        matched.
Proof.
  revert n. induction matched as [| [assetName rule] matched IH]; intros n.
  - reflexivity.
  - simpl. by rewrite IH.
Qed.

Lemma operations_Forall (P : ChmodRun → Prop) path_join fs outputPath n
    (matched : list (string * Rule)) :
  (∀ k path mode, P (chmod_run fs k path mode)) →
  Forall (λ o, P (op_run o)) (operations path_join fs outputPath n matched).
Proof.
  intros HP. revert n.
  induction matched as [| [assetName rule] matched IH]; intros n; simpl.
  - constructor.
  - constructor; [apply HP | apply IH].
Qed.

Lemma matched_assets_no_rules assetNames σ : matched_assets [] assetNames σ = [].
Proof.
  unfold matched_assets. revert σ.
  induction assetNames as [| assetName rest IH]; intros σ; [reflexivity|].
  simpl. specialize (IH σ).
  destruct (resolve_assets [] rest σ) as [results σ2]. simpl in *. exact IH.
Qed.

Lemma first_rejection_none (l : list Operation) :
  Forall (λ o, thrown (op_run o) = None) l →
  first_rejection (map mod_of_op l) = None.
Proof.
  induction 1 as [| o l Ho _ IH]; [reflexivity|].
  simpl. unfold op_promise. rewrite Ho.
  destruct (sync_callbacks (op_run o)); exact IH.
Qed.

Lemma op_warnings_none (l : list Operation) :
  Forall (λ o, Forall (λ err, err = None) (op_callbacks o)) l →
  l ≫= op_warnings = [].
Proof.
  induction 1 as [| o l Ho _ IH]; [reflexivity|].
  rewrite bind_cons, IH, app_nil_r. unfold op_warnings.
  induction Ho as [| err errs -> _ IHo]; [reflexivity | exact IHo].
Qed.

Lemma pending_warnings_drained (ms : list Mod) :
  Forall (λ m, queued m = []) ms → pending_warnings ms = [].
Proof.
  induction 1 as [| m ms Hm _ IH]; [reflexivity|].
  by rewrite pending_warnings_cons, Hm, IH.
Qed.

(** Once every invocation is made, a promise that is fulfilled or still owed
    an invocation is fulfilled. *)
Lemma drained_fulfilled (ms : list Mod) :
  Forall (λ m, promise m = Fulfilled ∨ (promise m = Pending ∧ queued m ≠ [])) ms →
  Forall (λ m, queued m = []) ms →
  forallb (λ m, is_fulfilled (promise m)) ms = true.
Proof.
  induction 1 as [| m ms Hm _ IH]; [reflexivity|].
  intros Hd. apply Forall_cons in Hd as [Hq Hd]. simpl.
  rewrite IH by assumption.
  destruct Hm as [-> | [_ Hne]]; [reflexivity | contradiction].
Qed.

Section WithChmod.

Variable path_join : string → string → string.
Variable rules : list Rule.
Variable compiler : Compiler.
Variable c : Compilation.
Variable σ : gmap nat nat.
Variable fs : OutputFileSystem.

Hypothesis has_fs : outputFileSystem compiler = Some fs.
Hypothesis chmod_is_function : typeof (chmod fs) = TFunction.

#[local] Abbreviation ops := (run_operations path_join rules compiler fs c σ).
#[local] Abbreviation run := (run_hook path_join rules compiler c σ).

Lemma run_hook_calls_matched schedule :
  chmod_calls (world (run schedule))
  = map (λ '(assetName, rule),
           (path_join (output_path compiler) assetName, permissions rule))
        (matched_assets rules (Object_keys (assets c)) σ).
Proof.
  rewrite (run_hook_chmod_calls path_join rules compiler c σ fs) by assumption.
  apply operations_calls.
Qed.

Lemma run_hook_always_succeeds schedule :
  always_succeeds fs →
  warnings (compilation (world (run schedule))) = warnings c ∧
  errors (compilation (world (run schedule))) = errors c ∧
  (drained (run schedule) → callback_calls (world (run schedule)) = [None]).
Proof.
  intros Hs.
  assert (Hops : Forall (λ o, thrown (op_run o) = None ∧
                   sync_callbacks (op_run o) ++ later_callbacks (op_run o) ≠ [] ∧
                   Forall (λ err, err = None)
                     (sync_callbacks (op_run o) ++ later_callbacks (op_run o))) ops).
  { apply (operations_Forall (λ r, thrown r = None ∧
             sync_callbacks r ++ later_callbacks r ≠ [] ∧
             Forall (λ err, err = None) (sync_callbacks r ++ later_callbacks r))).
    exact Hs. }
  assert (Hr : first_rejection (map mod_of_op ops) = None).
  { apply first_rejection_none. eapply Forall_impl; [exact Hops|].
    by intros o (? & _). }
  destruct (run_hook_not_rejected path_join rules compiler c σ fs
              has_fs chmod_is_function schedule Hr) as [He Hc].
  destruct (run_hook_warnings path_join rules compiler c σ fs
              has_fs chmod_is_function schedule) as (W & HW & HP).
  split; [|split].
  - rewrite op_warnings_none in HP.
    + apply Permutation_nil_r, app_eq_nil in HP as [-> _].
      by rewrite HW, app_nil_r.
    + eapply Forall_impl; [exact Hops|]. by intros o (_ & _ & ?).
  - exact He.
  - intros Hd. rewrite Hc, drained_fulfilled; [reflexivity| |exact Hd].
    apply (run_hook_mods path_join rules compiler c σ fs has_fs chmod_is_function
             (λ m, promise m = Fulfilled ∨ (promise m = Pending ∧ queued m ≠ []))).
    + intros m err rest [-> | [-> _]] _; simpl; by left.
    + eapply Forall_impl; [exact Hops|]. intros o (Ht & Hne & _).
      unfold mod_of_op, op_promise. simpl. rewrite Ht.
      destruct (sync_callbacks (op_run o)); [right | by left].
      split; [reflexivity | exact Hne].
Qed.

End WithChmod.

(** C5, at a failing input. The test "should handle large number of
    assets", the regular expression written [/\.js$/g], with a primitive that
    always succeeds: the configuration is accepted; each of the 100 asset
    names has a match result (the one rule), so that 100 assets are matched;
    the hook issues 50 operations, for [file0.js], [file2.js], ..., and none
    for the 50 others, and then reports success without a warning. *)
Theorem global_flag_halves_the_operations :
  let h := run_hook posix_join [global_rule]
             (scenario_compiler (Some chmod_succeeds)) hundred_compilation ∅ [] in
  constructor (options_object [rule_object (JSNumber 493) (JSRegExp re_js_global)])
  = Ok [global_rule] ∧
  always_succeeds chmod_succeeds ∧
  Object_keys (assets hundred_compilation) = hundred_names ∧
  length hundred_names = 100 ∧
  Forall (λ assetName, first_match [global_rule] assetName = Some global_rule)
         hundred_names ∧
  (chmod_calls (world h))
  = (λ i, ("/out/file" +:+ pretty (2 * i) +:+ ".js", JSNumber 493)) <$> seq 0 50 ∧
  length (chmod_calls (world h)) = 50 ∧
  warnings (compilation (world h)) = [] ∧
  errors (compilation (world h)) = [] ∧
  callback_calls (world h) = [None].
Proof.
  split; [vm_compute; reflexivity|].
  split.
  { intros n path mode. simpl. split; [reflexivity|]. split; [discriminate|].
    by constructor. }
  split; [vm_compute; reflexivity|]. split; [vm_compute; reflexivity|].
  split.
  { apply Forall_forall. intros assetName Hin.
    unfold hundred_names in Hin.
    apply list_elem_of_fmap in Hin as (i & -> & Hi).
    apply list_elem_of_In, in_seq in Hi.
    assert (Hall : forallb (λ i, bool_decide
                     (first_match [global_rule]
                        ("file" +:+ pretty i +:+ ".js") ≠ None)) (seq 0 100)
                   = true) by (vm_compute; reflexivity).
    rewrite forallb_forall in Hall.
    specialize (Hall i (proj2 (in_seq _ _ _) Hi)).
    apply bool_decide_eq_true in Hall.
    unfold first_match in *. simpl in *.
    destruct (satisfies re_js_global _ || false); [reflexivity|done]. }
  repeat split; vm_compute; reflexivity.
Qed.

(** ** Errors reported through the callback *)

Lemma op_warnings_once (l : list Operation) :
  Forall (λ o, length (op_callbacks o) = 1) l →
  l ≫= op_warnings = omap failure_warning l.
Proof.
  induction 1 as [| o l Ho _ IH]; [reflexivity|].
  rewrite bind_cons, IH.
  assert (E : op_warnings o = option_list (failure_warning o)).
  { unfold op_warnings, failure_warning, reported_error.
    destruct (op_callbacks o) as [| err [| ? ?]]; try discriminate.
    destruct err; reflexivity. }
  rewrite E. simpl. destruct (failure_warning o); reflexivity.
Qed.

(** With one invocation per operation, a promise is fulfilled exactly when
    its invocation has been made. *)
Lemma once_fulfilled_drained (ms : list Mod) :
  Forall (λ m, (promise m = Fulfilled ∧ queued m = []) ∨
               (promise m = Pending ∧ ∃ err, queued m = [err])) ms →
  forallb (λ m, is_fulfilled (promise m)) ms = true ↔
  Forall (λ m, queued m = []) ms.
Proof.
  induction 1 as [| m ms Hm _ IH]; [by split|].
  simpl. rewrite andb_true_iff, Forall_cons, IH.
  destruct Hm as [[-> ->] | [-> [err ->]]]; simpl; split; intros [? ?]; done.
Qed.

Section CallsBackOnce.

Variable path_join : string → string → string.
Variable rules : list Rule.
Variable compiler : Compiler.
Variable c : Compilation.
Variable σ : gmap nat nat.
Variable fs : OutputFileSystem.

Hypothesis has_fs : outputFileSystem compiler = Some fs.
Hypothesis chmod_is_function : typeof (chmod fs) = TFunction.
Hypothesis once : calls_back_once fs.

#[local] Abbreviation ops := (run_operations path_join rules compiler fs c σ).
#[local] Abbreviation run := (run_hook path_join rules compiler c σ).

Lemma ops_once :
  Forall (λ o, thrown (op_run o) = None ∧ length (op_callbacks o) = 1) ops.
Proof.
  apply (operations_Forall
           (λ r, thrown r = None ∧
                 length (sync_callbacks r ++ later_callbacks r) = 1)).
  exact once.
Qed.

Lemma mods_once schedule :
  Forall (λ m, (promise m = Fulfilled ∧ queued m = []) ∨
               (promise m = Pending ∧ ∃ err, queued m = [err]))
         (mods (run schedule)).
Proof.
  apply (run_hook_mods path_join rules compiler c σ fs has_fs chmod_is_function
           (λ m, (promise m = Fulfilled ∧ queued m = []) ∨
                 (promise m = Pending ∧ ∃ err, queued m = [err]))).
  - intros m err rest [[_ Hq] | [Hp [err' Hq]]] E; rewrite Hq in E.
    + discriminate.
    + injection E as <- <-. left. simpl. by rewrite Hp.
  - eapply Forall_impl; [exact ops_once|]. intros o [Ht Hl].
    unfold mod_of_op, op_promise, op_callbacks in *. simpl. rewrite Ht.
    destruct (sync_callbacks (op_run o)) as [| s [| ? ?]]; simpl in Hl.
    + right. split; [reflexivity|].
      destruct (later_callbacks (op_run o)) as [| l [| ? ?]]; try discriminate.
      by exists l.
    + left. split; [reflexivity|].
      destruct (later_callbacks (op_run o)); [reflexivity | discriminate].
    + discriminate.
Qed.

Lemma run_hook_calls_back_once schedule :
  errors (compilation (world (run schedule))) = errors c ∧
  (¬ drained (run schedule) → callback_calls (world (run schedule)) = []) ∧
  (drained (run schedule) →
     callback_calls (world (run schedule)) = [None] ∧
     ∃ W, warnings (compilation (world (run schedule))) = warnings c ++ W ∧
          Permutation W (omap failure_warning ops)).
Proof.
  assert (Hr : first_rejection (map mod_of_op ops) = None).
  { apply first_rejection_none. eapply Forall_impl; [exact ops_once|].
    by intros o [? _]. }
  destruct (run_hook_not_rejected path_join rules compiler c σ fs
              has_fs chmod_is_function schedule Hr) as [He Hc].
  pose proof (once_fulfilled_drained _ (mods_once schedule)) as Hiff.
  split; [exact He|]. split.
  - intros Hnd. rewrite Hc.
    destruct (forallb _ _) eqn:Ef; [|reflexivity].
    exfalso. apply Hnd. by apply Hiff.
  - intros Hd. split.
    + rewrite Hc. apply Hiff in Hd. by rewrite Hd.
    + destruct (run_hook_warnings path_join rules compiler c σ fs
                  has_fs chmod_is_function schedule) as (W & HW & HP).
      exists W. split; [exact HW|].
      rewrite pending_warnings_drained, app_nil_r in HP by exact Hd.
      rewrite HP. rewrite op_warnings_once; [reflexivity|].
      eapply Forall_impl; [exact ops_once|]. by intros o [_ ?].
Qed.

End CallsBackOnce.

(** C2. When the primitive reports the errors of some of the operations
    through their callbacks (each callback being invoked once), the hook
    still calls [chmod] for every matched asset, records no error, and
    invokes its callback only when every operation has called back, then
    once and without error; by then the warnings recorded are, in some order
    of arrival, exactly one per failing operation, with the path of the
    operation and the message of its error. *)
Theorem one_warning_per_failing_asset path_join rules compiler c σ fs schedule :
  outputFileSystem compiler = Some fs →
  typeof (chmod fs) = TFunction →
  calls_back_once fs →
  let h := run_hook path_join rules compiler c σ schedule in
  let ops := run_operations path_join rules compiler fs c σ in
  chmod_calls (world h)
  = map (λ '(assetName, rule),
           (path_join (output_path compiler) assetName, permissions rule))
        (matched_assets rules (Object_keys (assets c)) σ) ∧
  errors (compilation (world h)) = errors c ∧
  (¬ drained h → callback_calls (world h) = []) ∧
  (drained h →
     callback_calls (world h) = [None] ∧
     ∃ W, warnings (compilation (world h)) = warnings c ++ W ∧
          Permutation W
            (omap (λ o, (λ e, new_Error (plugin_name +:+
                                 ": Could not set permissions for " +:+
                                 op_path o +:+ ". Error: " +:+ message e))
                        <$> reported_error o) ops)).
Proof.
  intros Hfs Hf Ho h ops. subst h ops. split.
  - by apply (run_hook_calls_matched path_join rules compiler c σ fs).
  - by apply (run_hook_calls_back_once path_join rules compiler c σ fs).
Qed.

Lemma one_warning_per_failing_asset_witness :
  let h := run_hook posix_join scenario_rules
             (scenario_compiler (Some chmod_fails_css)) scenario_compilation ∅
             [1; 0] in
  calls_back_once chmod_fails_css ∧ drained h ∧
  chmod_calls (world h)
  = [("/out/script.js", JSNumber 493); ("/out/style.css", JSNumber 420)] ∧
  callback_calls (world h) = [None] ∧
  ∃ W, warnings (compilation (world h)) = W ∧
       Permutation W
         [new_Error ("SetFilePermissionsPlugin: Could not set permissions for "
                     +:+ "/out/style.css. Error: Permission denied")].
Proof.
  assert (Ho : calls_back_once chmod_fails_css).
  { intros n path mode. split; reflexivity. }
  assert (Hd : drained (run_hook posix_join scenario_rules
             (scenario_compiler (Some chmod_fails_css)) scenario_compilation ∅
             [1; 0])).
  { vm_compute. repeat constructor. }
  destruct (one_warning_per_failing_asset posix_join scenario_rules
              (scenario_compiler (Some chmod_fails_css)) scenario_compilation ∅
              chmod_fails_css [1; 0] eq_refl eq_refl Ho)
    as (Hcalls & _ & _ & Hc).
  destruct (Hc Hd) as (Hcb & W & HW & HP).
  split; [exact Ho|]. split; [exact Hd|]. split; [exact Hcalls|].
  split; [exact Hcb|]. exists W. split; [exact HW | exact HP].
Defined.

(** ** Exceptions of the primitive *)

(** A promise of [mods] is rejected when the call threw before it had
    invoked the callback, and only then. *)
Lemma op_promise_rejected o e :
  op_promise o = Rejected e ↔
  sync_callbacks (op_run o) = [] ∧ thrown (op_run o) = Some e.
Proof.
  unfold op_promise.
  destruct (sync_callbacks (op_run o)), (thrown (op_run o)); split;
    try (intros [? ?]); try discriminate; try congruence.
  by intros [= ->].
Qed.

Lemma first_rejection_first (l : list Operation) o e :
  o ∈ l → op_promise o = Rejected e →
  ∃ pre o1 post e1,
    l = pre ++ o1 :: post ∧
    Forall (λ o', ∀ e', op_promise o' ≠ Rejected e') pre ∧
    op_promise o1 = Rejected e1 ∧
    first_rejection (map mod_of_op l) = Some e1.
Proof.
  induction l as [| o0 l IH]; intros Hin Ho; [by apply elem_of_nil in Hin|].
  destruct (op_promise o0) as [| | e0] eqn:E0.
  - apply elem_of_cons in Hin as [-> | Hin]; [congruence|].
    destruct (IH Hin Ho) as (pre & o1 & post & e1 & -> & Hpre & H1 & Hf).
    exists (o0 :: pre), o1, post, e1. simpl. rewrite E0.
    split; [done|]. split; [|done]. constructor; [congruence | done].
  - apply elem_of_cons in Hin as [-> | Hin]; [congruence|].
    destruct (IH Hin Ho) as (pre & o1 & post & e1 & -> & Hpre & H1 & Hf).
    exists (o0 :: pre), o1, post, e1. simpl. rewrite E0.
    split; [done|]. split; [|done]. constructor; [congruence | done].
  - exists [], o0, l, e0. simpl. rewrite E0. by repeat split.
Qed.

(** C3. When some operation's promise is rejected, which is what happens
    when the primitive throws in place of invoking the callback, the hook
    records exactly one error, with the message "An unexpected error
    occurred." followed by the message of the exception of the first such
    operation, and invokes its callback once, with that exception. The
    exception is not recorded as a warning: the warnings added are those of
    errors passed to callbacks. The other operations are issued all the
    same. *)
Theorem rejected_promise_fails_build path_join rules compiler c σ fs schedule o :
  outputFileSystem compiler = Some fs →
  typeof (chmod fs) = TFunction →
  let h := run_hook path_join rules compiler c σ schedule in
  let ops := run_operations path_join rules compiler fs c σ in
  o ∈ ops →
  sync_callbacks (op_run o) = [] →
  is_Some (thrown (op_run o)) →
  ∃ pre o1 post e,
    ops = pre ++ o1 :: post ∧
    Forall (λ o', ∀ e', op_promise o' ≠ Rejected e') pre ∧
    sync_callbacks (op_run o1) = [] ∧ thrown (op_run o1) = Some e ∧
    errors (compilation (world h))
    = errors c ++ [new_Error (plugin_name +:+ ": An unexpected error occurred. "
                              +:+ message e)] ∧
    callback_calls (world h) = [Some e] ∧
    chmod_calls (world h)
    = map (λ '(assetName, rule),
             (path_join (output_path compiler) assetName, permissions rule))
          (matched_assets rules (Object_keys (assets c)) σ) ∧
    ∃ W, warnings (compilation (world h)) = warnings c ++ W ∧
         ∀ w, w ∈ W → w ∈ ops ≫= op_warnings.
Proof.
  intros Hfs Hf h ops Hin Hs [e0 Ht]. subst h ops.
  assert (Ho : op_promise o = Rejected e0) by (by apply op_promise_rejected).
  destruct (first_rejection_first _ o e0 Hin Ho)
    as (pre & o1 & post & e & Hops & Hpre & H1 & Hfirst).
  apply op_promise_rejected in H1 as [Hs1 Ht1].
  destruct (run_hook_rejected path_join rules compiler c σ fs Hfs Hf e schedule
              Hfirst) as [He Hc].
  destruct (run_hook_warnings path_join rules compiler c σ fs Hfs Hf schedule)
    as (W & HW & HP).
  exists pre, o1, post, e.
  split; [exact Hops|]. split; [exact Hpre|]. split; [exact Hs1|].
  split; [exact Ht1|]. split; [exact He|]. split; [exact Hc|].
  split; [by apply (run_hook_calls_matched path_join rules compiler c σ fs)|].
  exists W. split; [exact HW|].
  intros w Hw. rewrite <- HP. apply elem_of_app. by left.
Qed.

Lemma rejected_promise_fails_build_witness :
  let h := run_hook posix_join scenario_rules
             (scenario_compiler (Some chmod_throws)) scenario_compilation ∅ [] in
  ∃ e, errors (compilation (world h))
       = [new_Error ("SetFilePermissionsPlugin: An unexpected error occurred. "
                     +:+ message e)] ∧
       callback_calls (world h) = [Some e] ∧
       chmod_calls (world h)
       = [("/out/script.js", JSNumber 493); ("/out/style.css", JSNumber 420)].
Proof.
  destruct (rejected_promise_fails_build posix_join scenario_rules
              (scenario_compiler (Some chmod_throws)) scenario_compilation ∅
              chmod_throws []
              {| op_path := "/out/script.js"; op_mode := JSNumber 493;
                 op_run := {| sync_callbacks := []; thrown := Some unexpected_error;
                              later_callbacks := [] |} |}
              eq_refl eq_refl)
    as (pre & o1 & post & e & Hops & Hpre & Hs1 & Ht1 & He & Hc & Hcalls & _).
  - vm_compute. apply list_elem_of_here.
  - reflexivity.
  - by eexists.
  - exists e. split; [exact He|]. split; [exact Hc | exact Hcalls].
Defined.

(** An exception thrown after the callback was invoked finds the promise
    fulfilled: the primitive throws at every call, and yet no error is
    recorded and the callback of the hook is invoked without error. *)
Lemma throw_after_callback_is_ignored :
  let h := run_hook posix_join scenario_rules
             (scenario_compiler (Some chmod_calls_back_then_throws))
             scenario_compilation ∅ [] in
  (∀ n path mode,
     thrown (chmod_run chmod_calls_back_then_throws n path mode)
     = Some unexpected_error) ∧
  chmod_calls (world h)
  = [("/out/script.js", JSNumber 493); ("/out/style.css", JSNumber 420)] ∧
  errors (compilation (world h)) = [] ∧
  callback_calls (world h) = [None].
Proof. split; [reflexivity|]. vm_compute. done. Qed.

(** ** Claims about the constructor *)

(** C6. A configuration is rejected exactly when it is invalid: the options
    are not an object; the rule list is not an array; or some rule is not an
    object, lacks [permissions], lacks [patterns], or has a [patterns] value
    that is neither a string, a regular expression nor an array. The
    constructor then throws the message of the first violation met when the
    rules are checked in order, with the index of the offending rule. The
    constructor is a function of the options alone: it has nothing else to
    act on. *)
Theorem invalid_configuration_rejected options :
  (∀ msg, rejected_with options msg →
          constructor options = Throw (new_Error msg)) ∧
  (∀ e, constructor options = Throw e →
        ∃ msg, rejected_with options msg ∧ e = new_Error msg).
Proof.
  split.
  - intros msg. apply constructor_throws.
  - intros e He.
    destruct (constructor_classification options)
      as [(rules & _ & _ & _ & E) | [msg Hrej]]; [congruence|].
    exists msg. split; [exact Hrej|].
    apply constructor_throws in Hrej. congruence.
Qed.

Lemma invalid_configuration_rejected_witness :
  constructor
    (options_object [rule_object (JSNumber 493) (JSString "a.js");
                     JSObject [("permissions", JSNumber 420)];
                     JSString "not-an-object"])
  = Throw (new_Error (msg_patterns_required 1)).
Proof.
  apply (proj1 (invalid_configuration_rejected _)).
  apply (rejected_rule _ [rule_object (JSNumber 493) (JSString "a.js")]
           (JSObject [("permissions", JSNumber 420)])
           [JSString "not-an-object"] MissingPatterns).
  - split; [reflexivity | discriminate].
  - reflexivity.
  - constructor; [|constructor].
    intros [] H; simpl in H; try discriminate.
    + apply H. split; [reflexivity | discriminate].
    + apply H. left. reflexivity.
  - split; [reflexivity|].
    intros [] Hr H; simpl in *; try lia; try discriminate.
    apply H. split; [reflexivity | discriminate].
Defined.

Lemma well_formed_intro rule :
  is_object rule →
  field rule "permissions" ≠ JSUndefined →
  valid_patterns (field rule "patterns") →
  well_formed_rule rule.
Proof.
  intros Ho Hp Hv []; simpl; try tauto.
  intros E. rewrite E in Hv. destruct Hv as [H | [H | H]]; discriminate.
Qed.

(** A valid rule among valid rules is accepted, and the rule set holds its
    normal form at the same index. *)
Lemma constructor_accepts options (before : list JSValue) rule after :
  is_object options →
  field options "rules" = JSArray (before ++ rule :: after) →
  Forall well_formed_rule before →
  Forall well_formed_rule after →
  well_formed_rule rule →
  ∃ rs, constructor options = Ok rs ∧
        rs !! length before = Some (normalized rule).
Proof.
  intros Ho Hr Hb Ha Hw.
  exists (map normalized (before ++ rule :: after)). split.
  - rewrite constructor_object, Hr by assumption.
    apply Array_map_well_formed.
    apply Forall_app. split; [done | by constructor].
  - rewrite list_lookup_fmap, list_lookup_middle; done.
Qed.

(** C7. Every valid configuration is accepted, and the rule set the
    constructor returns for it holds, for each rule in order, the
    [permissions] value as it is and the [patterns] value in list form
    (and a rule set that is returned is of that form). Two configurations
    that differ in one rule only, which has a single string or regular
    expression [p] as [patterns] in the one and the array [[p]] in the
    other, get the same result from the constructor; when the configuration
    is valid both are accepted with one and the same rule set, which holds
    the pattern list [[p]] for that rule, hence with the same matching. *)
Theorem single_pattern_as_singleton :
  (∀ options rule_list,
     is_object options →
     field options "rules" = JSArray rule_list →
     Forall (λ rule, is_object rule ∧
                     field rule "permissions" ≠ JSUndefined ∧
                     valid_patterns (field rule "patterns")) rule_list →
     constructor options
     = Ok (map (λ rule, {| permissions := field rule "permissions";
                           patterns := pattern_list (field rule "patterns") |})
               rule_list)) ∧
  (∀ options rs,
     constructor options = Ok rs →
     ∃ rule_list, field options "rules" = JSArray rule_list ∧
       rs = map (λ rule, {| permissions := field rule "permissions";
                            patterns := pattern_list (field rule "patterns") |})
                rule_list) ∧
  (∀ options1 options2 before rule1 rule2 after p,
     is_object options1 → is_object options2 →
     field options1 "rules" = JSArray (before ++ rule1 :: after) →
     field options2 "rules" = JSArray (before ++ rule2 :: after) →
     is_object rule1 → is_object rule2 →
     field rule1 "permissions" = field rule2 "permissions" →
     typeof p = TString ∨ instanceof_RegExp p = true →
     field rule1 "patterns" = p →
     field rule2 "patterns" = JSArray [p] →
     constructor options1 = constructor options2 ∧
     (Forall well_formed_rule before →
      Forall well_formed_rule after →
      field rule1 "permissions" ≠ JSUndefined →
      ∃ rs, constructor options1 = Ok rs ∧ constructor options2 = Ok rs ∧
            rs !! length before
            = Some {| permissions := field rule1 "permissions";
                      patterns := [p] |}) ∧
     ∀ rs1 rs2 assetName σ,
       constructor options1 = Ok rs1 → constructor options2 = Ok rs2 →
       rs1 = rs2 ∧
       rs1 !! length before
       = Some {| permissions := field rule1 "permissions"; patterns := [p] |} ∧
       matchingRule rs1 assetName σ = matchingRule rs2 assetName σ).
Proof.
  split; [|split].
  - intros options rule_list Ho Hr Hv.
    rewrite constructor_object, Hr by assumption.
    apply Array_map_well_formed.
    eapply Forall_impl; [exact Hv|]. intros rule (? & ? & ?).
    by apply well_formed_intro.
  - intros options rs H.
    apply constructor_Ok_inv in H as (rule_list & _ & Hr & _ & ->).
    by exists rule_list.
  - intros options1 options2 before rule1 rule2 after p
           Ho1 Ho2 Hr1 Hr2 H1 H2 Hperm Hp Hp1 Hp2.
    assert (E : constructor options1 = constructor options2).
    { rewrite !constructor_object, Hr1, Hr2 by assumption.
      apply Array_map_replace. by apply (normalize_rule_single _ _ p). }
    assert (Hlist : pattern_list p = [p]).
    { destruct p; simpl in Hp; destruct Hp; try discriminate; reflexivity. }
    split; [exact E|]. split.
    + intros Hb Ha Hperm1.
      destruct (constructor_accepts options1 before rule1 after Ho1 Hr1 Hb Ha)
        as (rs & E1 & Hl).
      { apply well_formed_intro; [done | done |]. rewrite Hp1.
        destruct Hp as [Hp | Hp]; [by left | by right; left]. }
      exists rs. split; [exact E1|]. split; [by rewrite <- E|].
      rewrite Hl. unfold normalized. by rewrite Hp1, Hlist.
    + intros rs1 rs2 assetName σ E1 E2.
      assert (rs1 = rs2) as <- by congruence.
      split; [reflexivity|]. split; [|reflexivity].
      apply constructor_Ok_inv in E1 as (rule_list & _ & Hr & _ & ->).
      rewrite Hr1 in Hr. injection Hr as <-.
      rewrite list_lookup_fmap, list_lookup_middle by done. simpl.
      unfold normalized. by rewrite Hp1, Hlist.
Qed.

Lemma single_pattern_as_singleton_witness :
  constructor (options_object [rule_object (JSNumber 493) (JSRegExp re_js)])
  = Ok [{| permissions := JSNumber 493; patterns := [JSRegExp re_js] |}] ∧
  constructor (options_object
                 [rule_object (JSNumber 493) (JSArray [JSRegExp re_js])])
  = Ok [{| permissions := JSNumber 493; patterns := [JSRegExp re_js] |}] ∧
  ∃ rs,
    constructor (options_object [rule_object (JSNumber 493) (JSRegExp re_js)])
    = Ok rs ∧
    constructor (options_object
                   [rule_object (JSNumber 493) (JSArray [JSRegExp re_js])])
    = Ok rs ∧
    rs !! 0 = Some {| permissions := JSNumber 493;
                      patterns := [JSRegExp re_js] |}.
Proof.
  destruct single_pattern_as_singleton as (Hvalid & _ & Hsingle).
  split; [|split].
  - apply (Hvalid (options_object
                     [rule_object (JSNumber 493) (JSRegExp re_js)])
                  [rule_object (JSNumber 493) (JSRegExp re_js)]).
    + split; [reflexivity | discriminate].
    + reflexivity.
    + constructor; [|constructor].
      split; [split; [reflexivity | discriminate]|].
      split; [discriminate | by right; left].
  - apply (Hvalid (options_object
                     [rule_object (JSNumber 493) (JSArray [JSRegExp re_js])])
                  [rule_object (JSNumber 493) (JSArray [JSRegExp re_js])]).
    + split; [reflexivity | discriminate].
    + reflexivity.
    + constructor; [|constructor].
      split; [split; [reflexivity | discriminate]|].
      split; [discriminate | by right; right].
  - destruct (Hsingle
                (options_object [rule_object (JSNumber 493) (JSRegExp re_js)])
                (options_object
                   [rule_object (JSNumber 493) (JSArray [JSRegExp re_js])])
                [] (rule_object (JSNumber 493) (JSRegExp re_js))
                (rule_object (JSNumber 493) (JSArray [JSRegExp re_js])) []
                (JSRegExp re_js))
      as (_ & Haccepted & _);
      try reflexivity; try (split; [reflexivity | discriminate]).
    + by right.
    + apply Haccepted; [constructor | constructor | discriminate].
Defined.

(** The configuration of the scenario of section 8 gives its rule set. *)
Lemma scenario_constructed : constructor scenario_options = Ok scenario_rules.
Proof. reflexivity. Qed.

(** ** Claims about the permissions value and the pattern values *)

Lemma run_hook_passes_permissions path_join rules compiler c σ fs schedule
    assetName rule :
  outputFileSystem compiler = Some fs →
  typeof (chmod fs) = TFunction →
  (assetName, rule) ∈ matched_assets rules (Object_keys (assets c)) σ →
  (path_join (output_path compiler) assetName, permissions rule)
  ∈ chmod_calls (world (run_hook path_join rules compiler c σ schedule)).
Proof.
  intros Hfs Hf Hin.
  rewrite (run_hook_calls_matched path_join rules compiler c σ fs) by assumption.
  apply list_elem_of_fmap. by exists (assetName, rule).
Qed.

(** C8. A rule whose [permissions] is 0 is accepted by the constructor like
    any valid rule, the rule set holding 0 for it; and for every asset whose
    rule has 0 as permissions, [chmod] is called with the mode 0. *)
Theorem zero_permissions_passed_through :
  (∀ options before rule after,
     is_object options →
     field options "rules" = JSArray (before ++ rule :: after) →
     Forall well_formed_rule before →
     Forall well_formed_rule after →
     is_object rule →
     field rule "permissions" = JSNumber 0 →
     valid_patterns (field rule "patterns") →
     ∃ rs, constructor options = Ok rs ∧
           rs !! length before
           = Some {| permissions := JSNumber 0;
                     patterns := pattern_list (field rule "patterns") |}) ∧
  (∀ path_join rules compiler c σ fs schedule assetName rule,
     outputFileSystem compiler = Some fs →
     typeof (chmod fs) = TFunction →
     (assetName, rule) ∈ matched_assets rules (Object_keys (assets c)) σ →
     permissions rule = JSNumber 0 →
     (path_join (output_path compiler) assetName, JSNumber 0)
     ∈ chmod_calls (world (run_hook path_join rules compiler c σ schedule))).
Proof.
  split.
  - intros options before rule after Ho Hr Hb Ha Hrule Hp Hv.
    destruct (constructor_accepts options before rule after Ho Hr Hb Ha)
      as (rs & E & Hl).
    { apply well_formed_intro; [done | by rewrite Hp | done]. }
    exists rs. split; [exact E|]. rewrite Hl. unfold normalized. by rewrite Hp.
  - intros path_join rules compiler c σ fs schedule assetName rule Hfs Hf Hin Hp.
    rewrite <- Hp. by apply (run_hook_passes_permissions _ _ _ _ _ fs).
Qed.

Lemma zero_permissions_passed_through_witness :
  (∃ rs, constructor zero_options = Ok rs ∧
         rs !! 0 = Some {| permissions := JSNumber 0;
                           patterns := [JSString "script.js"] |}) ∧
  ("/out/script.js", JSNumber 0)
  ∈ chmod_calls
      (world (run_hook posix_join
                [{| permissions := JSNumber 0;
                    patterns := [JSString "script.js"] |}]
                (scenario_compiler (Some chmod_succeeds)) script_compilation ∅ [])).
Proof.
  split.
  - apply (proj1 zero_permissions_passed_through zero_options []
             (rule_object (JSNumber 0) (JSString "script.js")) []).
    + split; [reflexivity | discriminate].
    + reflexivity.
    + constructor.
    + constructor.
    + split; [reflexivity | discriminate].
    + reflexivity.
    + left. reflexivity.
  - apply (proj2 zero_permissions_passed_through posix_join
             [{| permissions := JSNumber 0; patterns := [JSString "script.js"] |}]
             (scenario_compiler (Some chmod_succeeds)) script_compilation ∅
             chmod_succeeds [] "script.js"
             {| permissions := JSNumber 0; patterns := [JSString "script.js"] |}).
    + reflexivity.
    + reflexivity.
    + vm_compute. apply list_elem_of_here.
    + reflexivity.
Defined.

Lemma permissions_message_distinct index :
  msg_permissions_required index ≠ msg_patterns_required index ∧
  msg_permissions_required index ≠ msg_patterns_invalid index.
Proof. split; intros H; simpl in H; discriminate. Qed.

(** C10. The constructor throws the "permissions is required" error for a
    rule exactly when the rule's [permissions] is [undefined]; any other
    value ([null], a string, a negative number, ...) is accepted without a
    check and stored as it is; and [chmod] is called with the stored value
    as its mode for every asset whose rule it is. *)
Theorem permissions_unchecked :
  (∀ rule index,
     is_object rule →
     normalize_rule rule index
     = Throw (new_Error (msg_permissions_required index))
     ↔ field rule "permissions" = JSUndefined) ∧
  (∀ options before rule after,
     is_object options →
     field options "rules" = JSArray (before ++ rule :: after) →
     Forall well_formed_rule before →
     Forall well_formed_rule after →
     is_object rule →
     field rule "permissions" ≠ JSUndefined →
     valid_patterns (field rule "patterns") →
     ∃ rs, constructor options = Ok rs ∧
           rs !! length before
           = Some {| permissions := field rule "permissions";
                     patterns := pattern_list (field rule "patterns") |}) ∧
  (∀ path_join rules compiler c σ fs schedule assetName rule,
     outputFileSystem compiler = Some fs →
     typeof (chmod fs) = TFunction →
     (assetName, rule) ∈ matched_assets rules (Object_keys (assets c)) σ →
     (path_join (output_path compiler) assetName, permissions rule)
     ∈ chmod_calls (world (run_hook path_join rules compiler c σ schedule))).
Proof.
  split; [|split].
  - intros rule index Ho. rewrite normalize_rule_object by assumption.
    destruct (permissions_message_distinct index) as [Hd1 Hd2].
    split.
    + destruct (bool_decide (typeof (field rule "permissions") = TUndefined))
        eqn:E.
      * intros _. apply bool_decide_eq_true in E. by apply typeof_undefined.
      * repeat case_match; intros [= Hmsg]; congruence.
    + intros ->. reflexivity.
  - intros options before rule after Ho Hr Hb Ha Hrule Hp Hv.
    apply (constructor_accepts options before rule after); try done.
    by apply well_formed_intro.
  - intros path_join rules compiler c σ fs schedule assetName rule.
    apply run_hook_passes_permissions.
Qed.

Lemma permissions_unchecked_witness :
  (∃ rs, constructor null_options = Ok rs ∧
         rs !! 0 = Some {| permissions := JSNull;
                           patterns := [JSString "script.js"] |}) ∧
  ("/out/script.js", JSNull)
  ∈ chmod_calls
      (world (run_hook posix_join
                [{| permissions := JSNull; patterns := [JSString "script.js"] |}]
                (scenario_compiler (Some chmod_succeeds)) script_compilation ∅ [])).
Proof.
  split.
  - apply (proj1 (proj2 permissions_unchecked) null_options []
             (rule_object JSNull (JSString "script.js")) []).
    + split; [reflexivity | discriminate].
    + reflexivity.
    + constructor.
    + constructor.
    + split; [reflexivity | discriminate].
    + discriminate.
    + left. reflexivity.
  - apply (proj2 (proj2 permissions_unchecked) posix_join
             [{| permissions := JSNull; patterns := [JSString "script.js"] |}]
             (scenario_compiler (Some chmod_succeeds)) script_compilation ∅
             chmod_succeeds [] "script.js"
             {| permissions := JSNull; patterns := [JSString "script.js"] |}).
    + reflexivity.
    + reflexivity.
    + vm_compute. apply list_elem_of_here.
Defined.

Lemma matchingRule_usable rules assetName σ :
  matchingRule (map usable_part rules) assetName σ
  = (usable_part <$> (matchingRule rules assetName σ).1,
     (matchingRule rules assetName σ).2).
Proof.
  unfold matchingRule. revert σ.
  induction rules as [| rule rules IH]; intros σ; [reflexivity|].
  simpl. rewrite <- Array_some_usable.
  destruct (Array_some (pattern_matches assetName) (patterns rule) σ)
    as [[] σ1]; [reflexivity | apply IH].
Qed.

Lemma matched_assets_usable rules assetNames σ :
  matched_assets (map usable_part rules) assetNames σ
  = map (λ '(assetName, rule), (assetName, usable_part rule))
        (matched_assets rules assetNames σ)
  ∧ (resolve_assets (map usable_part rules) assetNames σ).2
    = (resolve_assets rules assetNames σ).2.
Proof.
  revert σ. induction assetNames as [| assetName rest IH]; intros σ; [done|].
  rewrite !matched_assets_cons, !resolve_assets_cons_store.
  rewrite matchingRule_usable. simpl.
  destruct (IH (matchingRule rules assetName σ).2) as [-> ->].
  split; [|reflexivity].
  destruct (matchingRule rules assetName σ).1; reflexivity.
Qed.

(** C9. The constructor accepts a rule whose [patterns] is an array
    whatever the array holds, and stores the array as the pattern list. A
    pattern that is neither a string nor a regular expression matches no
    asset name and touches no regular expression; such patterns can be
    erased from every rule without changing which rule is found for a name,
    nor which calls to [chmod] the hook makes. *)
Theorem unvalidated_patterns_never_match :
  (∀ options before rule after elements,
     is_object options →
     field options "rules" = JSArray (before ++ rule :: after) →
     Forall well_formed_rule before →
     Forall well_formed_rule after →
     is_object rule →
     field rule "permissions" ≠ JSUndefined →
     field rule "patterns" = JSArray elements →
     ∃ rs, constructor options = Ok rs ∧
           rs !! length before
           = Some {| permissions := field rule "permissions";
                     patterns := elements |}) ∧
  (∀ assetName pattern σ,
     typeof pattern ≠ TString → instanceof_RegExp pattern = false →
     pattern_matches assetName pattern σ = (false, σ)) ∧
  (∀ rules assetName σ,
     matchingRule (map usable_part rules) assetName σ
     = (usable_part <$> (matchingRule rules assetName σ).1,
        (matchingRule rules assetName σ).2)) ∧
  (∀ path_join rules compiler c σ schedule,
     chmod_calls
       (world (run_hook path_join (map usable_part rules) compiler c σ schedule))
     = chmod_calls (world (run_hook path_join rules compiler c σ schedule))).
Proof.
  split; [|split; [|split]].
  - intros options before rule after elements Ho Hr Hb Ha Hrule Hp Hq.
    destruct (constructor_accepts options before rule after Ho Hr Hb Ha)
      as (rs & E & Hl).
    { apply well_formed_intro; [done | done |]. rewrite Hq. by right; right. }
    exists rs. split; [exact E|]. rewrite Hl. unfold normalized. by rewrite Hq.
  - intros assetName pattern σ Hs Hr. apply pattern_matches_unusable.
    unfold usable_pattern. rewrite Hr. by rewrite bool_decide_eq_false_2.
  - apply matchingRule_usable.
  - intros path_join rules compiler c σ schedule.
    destruct (outputFileSystem compiler) as [fs |] eqn:Hfs.
    + destruct (decide (typeof (chmod fs) = TFunction)) as [Hf | Hf].
      * rewrite !(run_hook_calls_matched path_join _ compiler c σ fs)
          by assumption.
        destruct (matched_assets_usable rules (Object_keys (assets c)) σ)
          as [-> _].
        rewrite <- list_fmap_compose. apply list_fmap_ext.
        by intros i [assetName rule] _.
      * rewrite !run_hook_without_chmod by (right; by exists fs). reflexivity.
    + rewrite !run_hook_without_chmod by (by left). reflexivity.
Qed.

Lemma unvalidated_patterns_never_match_witness :
  (∃ rs, constructor junk_options = Ok rs ∧
         rs !! 0 = Some {| permissions := JSNumber 493;
                           patterns := [JSNumber 5; JSNull; JSObject []] |}) ∧
  pattern_matches "5" (JSNumber 5) ∅ = (false, ∅).
Proof.
  split.
  - apply (proj1 unvalidated_patterns_never_match junk_options []
             (rule_object (JSNumber 493)
                          (JSArray [JSNumber 5; JSNull; JSObject []])) []
             [JSNumber 5; JSNull; JSObject []]).
    + split; [reflexivity | discriminate].
    + reflexivity.
    + constructor.
    + constructor.
    + split; [reflexivity | discriminate].
    + discriminate.
    + reflexivity.
  - apply (proj1 (proj2 unvalidated_patterns_never_match) "5" (JSNumber 5) ∅).
    + discriminate.
    + reflexivity.
Defined.

(** ** Regular expressions with the [g] flag *)

(** C1, at a failing input. The rules are those of the test "should use
    first matching rule when multiple rules match", the regular expression
    written [/\.js$/g]. Both rules match [script.js] and the first is its
    match result, which the code finds when [script.js] is the first name it
    looks up; both scripts of the second compilation satisfy the
    expression. But [test] leaves [lastIndex] at the end of the name it
    accepted, and the next name is searched from there: after [vendor.js],
    [script.js] is given the permissions of the second rule; after [a.js],
    [b.js] gets no call at all. *)
Theorem global_flag_defeats_first_match :
  constructor global_options = Ok global_rules ∧
  (matchingRule global_rules "script.js" ∅).1
  = Some {| permissions := JSNumber 493; patterns := [JSRegExp re_js_global] |} ∧
  first_match global_rules "vendor.js"
  = Some {| permissions := JSNumber 493; patterns := [JSRegExp re_js_global] |} ∧
  first_match global_rules "script.js"
  = Some {| permissions := JSNumber 493; patterns := [JSRegExp re_js_global] |} ∧
  first_match global_rules "b.js"
  = Some {| permissions := JSNumber 493; patterns := [JSRegExp re_js_global] |} ∧
  chmod_calls
    (world (run_hook posix_join global_rules
              (scenario_compiler (Some chmod_succeeds)) global_compilation ∅ []))
  = [("/out/vendor.js", JSNumber 493); ("/out/script.js", JSNumber 420)] ∧
  chmod_calls
    (world (run_hook posix_join global_rules
              (scenario_compiler (Some chmod_succeeds)) two_scripts_compilation
              ∅ []))
  = [("/out/a.js", JSNumber 493)].
Proof. repeat split; vm_compute; reflexivity. Qed.

(** ** The tests of the repository, on the model *)

(** The tests of [permissions-webpack-plugin.spec.ts] that observe the
    constructor or the hook, with the outcome each test asserts. *)

Lemma test_options_not_provided :
  constructor JSNull = Throw (new_Error msg_options_required).
Proof. reflexivity. Qed.

Lemma test_options_not_an_object :
  constructor (JSString "invalid") = Throw (new_Error msg_options_required).
Proof. reflexivity. Qed.

Lemma test_rules_not_an_array :
  constructor (JSObject [("rules", JSString "not-an-array")])
  = Throw (new_Error msg_rules_not_array).
Proof. reflexivity. Qed.

Lemma test_rule_not_an_object :
  constructor (options_object [JSString "not-an-object"])
  = Throw (new_Error (msg_rule_not_object 0)).
Proof. reflexivity. Qed.

Lemma test_permissions_missing :
  constructor (options_object [JSObject [("patterns", JSArray [JSString "*.js"])]])
  = Throw (new_Error (msg_permissions_required 0)).
Proof. reflexivity. Qed.

Lemma test_patterns_missing :
  constructor (options_object [JSObject [("permissions", JSNumber 493)]])
  = Throw (new_Error (msg_patterns_required 0)).
Proof. reflexivity. Qed.

Lemma test_patterns_invalid_type :
  constructor (options_object [rule_object (JSNumber 493) (JSNumber 123)])
  = Throw (new_Error (msg_patterns_invalid 0)).
Proof. reflexivity. Qed.

Lemma test_accepts_array_of_patterns :
  constructor (options_object
                 [rule_object (JSNumber 493)
                    (JSArray [JSString "*.js"; ext 0 "ts"; JSString "script.sh"])])
  = Ok [{| permissions := JSNumber 493;
           patterns := [JSString "*.js"; ext 0 "ts"; JSString "script.sh"] |}].
Proof. reflexivity. Qed.

Lemma test_empty_rules_and_empty_patterns :
  constructor (options_object []) = Ok [] ∧
  constructor (options_object [rule_object (JSNumber 493) (JSArray [])])
  = Ok [{| permissions := JSNumber 493; patterns := [] |}].
Proof. split; reflexivity. Qed.

Lemma test_no_chmod_support :
  runHook [rule_object (JSNumber 493) (JSArray [JSString "*.js"])] []
          (Some empty_object_fs)
  = Ok {| seen_calls := []; seen_warnings := [msg_no_chmod];
          seen_errors := []; seen_callback := [None] |} ∧
  runHook [rule_object (JSNumber 493) (JSArray [JSString "*.js"])] [] None
  = Ok {| seen_calls := []; seen_warnings := [msg_no_chmod];
          seen_errors := []; seen_callback := [None] |}.
Proof. split; reflexivity. Qed.

Lemma test_string_pattern :
  runHook [rule_object (JSNumber 493) (JSString "script.js")]
          ["script.js"; "style.css"] (Some chmod_succeeds)
  = Ok {| seen_calls := [("/output/path/script.js", JSNumber 493)];
          seen_warnings := []; seen_errors := []; seen_callback := [None] |}.
Proof. vm_compute. reflexivity. Qed.

Lemma test_RegExp_pattern :
  runHook [rule_object (JSNumber 493) (ext 0 "js")]
          ["script.js"; "another.js"; "style.css"] (Some chmod_succeeds)
  = Ok {| seen_calls := [("/output/path/script.js", JSNumber 493);
                         ("/output/path/another.js", JSNumber 493)];
          seen_warnings := []; seen_errors := []; seen_callback := [None] |}.
Proof. vm_compute. reflexivity. Qed.

Lemma test_multiple_patterns :
  runHook [rule_object (JSNumber 493) (JSArray [JSString "script.js"; ext 0 "sh"])]
          ["script.js"; "build.sh"; "style.css"] (Some chmod_succeeds)
  = Ok {| seen_calls := [("/output/path/script.js", JSNumber 493);
                         ("/output/path/build.sh", JSNumber 493)];
          seen_warnings := []; seen_errors := []; seen_callback := [None] |}.
Proof. vm_compute. reflexivity. Qed.

Lemma test_different_rules :
  runHook [rule_object (JSNumber 493) (ext 0 "js");
           rule_object (JSNumber 420) (ext 1 "css")]
          ["script.js"; "style.css"; "readme.txt"] (Some chmod_succeeds)
  = Ok {| seen_calls := [("/output/path/script.js", JSNumber 493);
                         ("/output/path/style.css", JSNumber 420)];
          seen_warnings := []; seen_errors := []; seen_callback := [None] |}.
Proof. vm_compute. reflexivity. Qed.

Lemma test_first_matching_rule :
  runHook [rule_object (JSNumber 493) (ext 0 "js");
           rule_object (JSNumber 420) (JSString "script.js")]
          ["script.js"] (Some chmod_succeeds)
  = Ok {| seen_calls := [("/output/path/script.js", JSNumber 493)];
          seen_warnings := []; seen_errors := []; seen_callback := [None] |}.
Proof. vm_compute. reflexivity. Qed.

Lemma test_chmod_fails :
  runHook [rule_object (JSNumber 493) (JSString "script.js")] ["script.js"]
          (Some chmod_denied)
  = Ok {| seen_calls := [("/output/path/script.js", JSNumber 493)];
          seen_warnings :=
            ["SetFilePermissionsPlugin: Could not set permissions for " +:+
             "/output/path/script.js. Error: Permission denied"];
          seen_errors := []; seen_callback := [None] |}.
Proof. vm_compute. reflexivity. Qed.

Lemma test_empty_assets_and_no_match :
  runHook [rule_object (JSNumber 493) (ext 0 "js")] [] (Some chmod_succeeds)
  = Ok {| seen_calls := []; seen_warnings := []; seen_errors := [];
          seen_callback := [None] |} ∧
  runHook [rule_object (JSNumber 493) (ext 0 "js")] ["style.css"; "image.png"]
          (Some chmod_succeeds)
  = Ok {| seen_calls := []; seen_warnings := []; seen_errors := [];
          seen_callback := [None] |} ∧
  runHook [] ["script.js"; "style.css"] (Some chmod_succeeds)
  = Ok {| seen_calls := []; seen_warnings := []; seen_errors := [];
          seen_callback := [None] |} ∧
  runHook [rule_object (JSNumber 493) (ext 0 "nonexistent")]
          ["script.js"; "style.css"] (Some chmod_succeeds)
  = Ok {| seen_calls := []; seen_warnings := []; seen_errors := [];
          seen_callback := [None] |}.
Proof. repeat split; vm_compute; reflexivity. Qed.

Lemma test_nested_directory_paths :
  runHook [rule_object (JSNumber 493) (JSString "assets/js/script.js")]
          ["assets/js/script.js"; "assets/css/style.css"] (Some chmod_succeeds)
  = Ok {| seen_calls := [("/output/path/assets/js/script.js", JSNumber 493)];
          seen_warnings := []; seen_errors := []; seen_callback := [None] |}.
Proof. vm_compute. reflexivity. Qed.

Lemma test_complex_patterns :
  runHook [rule_object (JSNumber 493)
             (JSArray [ext 0 "js"; ext 1 "sh"; JSString "bin/executable"]);
           rule_object (JSNumber 420) (css_html_json 2)]
          ["app.js"; "script.sh"; "bin/executable"; "style.css"; "index.html";
           "config.json"; "image.png"] (Some chmod_succeeds)
  = Ok {| seen_calls := [("/output/path/app.js", JSNumber 493);
                         ("/output/path/script.sh", JSNumber 493);
                         ("/output/path/bin/executable", JSNumber 493);
                         ("/output/path/style.css", JSNumber 420);
                         ("/output/path/index.html", JSNumber 420);
                         ("/output/path/config.json", JSNumber 420)];
          seen_warnings := []; seen_errors := []; seen_callback := [None] |}.
Proof. vm_compute. reflexivity. Qed.

Lemma test_errors_during_Promise_all :
  runHook [rule_object (JSNumber 493) (JSString "script.js")] ["script.js"]
          (Some chmod_throws)
  = Ok {| seen_calls := [("/output/path/script.js", JSNumber 493)];
          seen_warnings := [];
          seen_errors := ["SetFilePermissionsPlugin: An unexpected error " +:+
                          "occurred. Unexpected error"];
          seen_callback := [Some unexpected_error] |}.
Proof. vm_compute. reflexivity. Qed.

Lemma test_permissions_zero :
  runHook [rule_object (JSNumber 0) (JSString "script.js")] ["script.js"]
          (Some chmod_succeeds)
  = Ok {| seen_calls := [("/output/path/script.js", JSNumber 0)];
          seen_warnings := []; seen_errors := []; seen_callback := [None] |}.
Proof. vm_compute. reflexivity. Qed.

Lemma test_mixed_patterns :
  runHook [rule_object (JSNumber 493)
             (JSArray [JSString "nonexistent.file"; ext 0 "js";
                       JSString "another-nonexistent"])]
          ["script.js"; "style.css"] (Some chmod_succeeds)
  = Ok {| seen_calls := [("/output/path/script.js", JSNumber 493)];
          seen_warnings := []; seen_errors := []; seen_callback := [None] |}.
Proof. vm_compute. reflexivity. Qed.

Lemma test_case_sensitive_string :
  runHook [rule_object (JSNumber 493) (JSString "Script.js")] ["script.js"]
          (Some chmod_succeeds)
  = Ok {| seen_calls := []; seen_warnings := []; seen_errors := [];
          seen_callback := [None] |}.
Proof. vm_compute. reflexivity. Qed.

Lemma test_large_number_of_assets :
  (λ observed, length (seen_calls observed)) <$>
    (match runHook [rule_object (JSNumber 493) (ext 0 "js")]
                   ((λ i, "file" +:+ pretty i +:+ ".js") <$> seq 0 100)
                   (Some chmod_succeeds) with
     | Ok observed => Some observed
     | Throw _ => None
     end)
  = Some 100.
Proof. vm_compute. reflexivity. Qed.

(** The test "should handle large number of assets" with the regular
    expression written [/\\.js$/g]: every second asset is skipped, the hook
    makes 50 calls for the 100 scripts. *)
Lemma test_large_number_of_assets_global_flag :
  (λ observed, length (seen_calls observed)) <$>
    (match runHook [rule_object (JSNumber 493) (JSRegExp re_js_global)]
                   ((λ i, "file" +:+ pretty i +:+ ".js") <$> seq 0 100)
                   (Some chmod_succeeds) with
     | Ok observed => Some observed
     | Throw _ => None
     end)
  = Some 50.
Proof. vm_compute. reflexivity. Qed.

(** * Further properties of the code *)

(** ** What a regular expression accepts *)

Lemma search_Some_inv m subject lastIndex tries e :
  search m subject lastIndex tries = Some e →
  ∃ k, lastIndex ≤ k < lastIndex + tries ∧ m subject k = Some e.
Proof.
  revert lastIndex. induction tries as [| tries IH]; intros lastIndex; simpl.
  - discriminate.
  - destruct (m subject lastIndex) as [e' |] eqn:E.
    + intros [= ->]. exists lastIndex. split; [lia | exact E].
    + intros H. apply IH in H as (k & Hk & Hm). exists k. split; [lia | exact Hm].
Qed.

Lemma search_is_Some m subject lastIndex tries k :
  lastIndex ≤ k < lastIndex + tries →
  is_Some (m subject k) →
  is_Some (search m subject lastIndex tries).
Proof.
  revert lastIndex. induction tries as [| tries IH]; intros lastIndex Hk Hm.
  - lia.
  - simpl. destruct (m subject lastIndex) as [e' |] eqn:E; [by eexists|].
    apply IH; [|exact Hm].
    destruct (decide (k = lastIndex)) as [-> | Hne].
    + rewrite E in Hm. by destruct Hm.
    + lia.
Qed.

(** Whatever its flags and its [lastIndex], a regular expression accepts
    only names it has a match in. *)
Lemma RegExp_test_sound r assetName σ σ' :
  RegExp_test r assetName σ = (true, σ') → satisfies r assetName = true.
Proof.
  unfold RegExp_test, satisfies. intros H.
  apply bool_decide_eq_true.
  set (lastIndex := if re_global r || re_sticky r then lastIndex_of σ r else 0)
    in *.
  destruct (re_sticky r).
  - destruct (bool_decide (lastIndex ≤ String.length assetName)) eqn:Hle.
    + apply bool_decide_eq_true in Hle.
      destruct (re_matcher r assetName lastIndex) as [e |] eqn:E;
        [|discriminate].
      apply (search_is_Some _ _ _ _ lastIndex); [lia | by eexists].
    + discriminate.
  - destruct (search (re_matcher r) assetName lastIndex
                     (S (String.length assetName) - lastIndex)) as [e |] eqn:E;
      [|discriminate].
    apply search_Some_inv in E as (k & Hk & Hm).
    apply (search_is_Some _ _ _ _ k); [lia | by eexists].
Qed.

Lemma pattern_matches_sound assetName pattern σ σ' :
  pattern_matches assetName pattern σ = (true, σ') →
  matches assetName pattern = true.
Proof.
  destruct pattern; simpl; try discriminate.
  - by intros [= -> _].
  - apply RegExp_test_sound.
Qed.

Lemma matchingRule_sound rules assetName σ rule σ' :
  matchingRule rules assetName σ = (Some rule, σ') →
  rule ∈ rules ∧
  ∃ pattern, pattern ∈ patterns rule ∧ matches assetName pattern = true.
Proof.
  intros H. apply Array_find_Some in H as (pre & post & σ1 & -> & _ & Hx).
  split; [apply elem_of_app; right; apply list_elem_of_here|].
  apply Array_some_true in Hx as (ps & p & qs & σ2 & E & _ & Hp).
  exists p. split.
  - rewrite E. apply elem_of_app. right. apply list_elem_of_here.
  - by eapply pattern_matches_sound.
Qed.

Lemma matched_assets_sound rules assetNames σ assetName rule :
  (assetName, rule) ∈ matched_assets rules assetNames σ →
  assetName ∈ assetNames ∧ rule ∈ rules ∧
  ∃ pattern, pattern ∈ patterns rule ∧ matches assetName pattern = true.
Proof.
  revert σ. induction assetNames as [| name rest IH]; intros σ.
  - intros H. by apply elem_of_nil in H.
  - rewrite matched_assets_cons.
    destruct (matchingRule rules name σ) as [[found |] σ1] eqn:E; simpl.
    + intros [H | H]%elem_of_cons.
      * injection H as -> ->. split; [apply list_elem_of_here|].
        by eapply matchingRule_sound.
      * apply IH in H as (? & ? & ?). split; [by apply list_elem_of_further|done].
    + intros H. apply IH in H as (? & ? & ?).
      split; [by apply list_elem_of_further|done].
Qed.

(** ** The store of the regular expressions *)

Lemma RegExp_test_frame r assetName σ loc :
  (re_global r || re_sticky r = true → re_loc r ≠ loc) →
  (RegExp_test r assetName σ).2 !! loc = σ !! loc.
Proof.
  intros H. unfold RegExp_test.
  destruct (re_global r || re_sticky r) eqn:E.
  - specialize (H eq_refl).
    repeat case_match; simpl; by rewrite lookup_insert_ne.
  - repeat case_match; reflexivity.
Qed.

Lemma Array_some_frame assetName (ps : list JSValue) σ loc :
  (∀ r, JSRegExp r ∈ ps → re_global r || re_sticky r = true → re_loc r ≠ loc) →
  (Array_some (pattern_matches assetName) ps σ).2 !! loc = σ !! loc.
Proof.
  revert σ. induction ps as [| p ps IH]; intros σ H; [reflexivity|].
  simpl.
  assert (Hp : (pattern_matches assetName p σ).2 !! loc = σ !! loc).
  { destruct p; try reflexivity. simpl. apply RegExp_test_frame.
    apply H, list_elem_of_here. }
  destruct (pattern_matches assetName p σ) as [[] σ1]; simpl in *; [exact Hp|].
  rewrite IH; [exact Hp|].
  intros r Hr. apply H. by apply list_elem_of_further.
Qed.

Lemma matchingRule_frame rules assetName σ loc :
  ¬ may_write rules loc →
  (matchingRule rules assetName σ).2 !! loc = σ !! loc.
Proof.
  unfold matchingRule. revert σ.
  induction rules as [| rule rules IH]; intros σ H; [reflexivity|].
  simpl.
  assert (Hr : (Array_some (pattern_matches assetName) (patterns rule) σ).2 !! loc
               = σ !! loc).
  { apply Array_some_frame. intros r Hin Hflag Hloc. apply H.
    exists rule, r. split; [apply list_elem_of_here | done]. }
  destruct (Array_some (pattern_matches assetName) (patterns rule) σ)
    as [[] σ1]; simpl in *; [exact Hr|].
  rewrite IH; [exact Hr|].
  intros (rule' & r & Hin & ?). apply H. exists rule', r.
  split; [by apply list_elem_of_further | done].
Qed.

Lemma resolve_assets_frame rules assetNames σ loc :
  ¬ may_write rules loc →
  (resolve_assets rules assetNames σ).2 !! loc = σ !! loc.
Proof.
  intros H. revert σ.
  induction assetNames as [| assetName rest IH]; intros σ; [reflexivity|].
  rewrite resolve_assets_cons_store, IH. by apply matchingRule_frame.
Qed.

Lemma run_hook_lastIndexes path_join rules compiler c σ fs schedule :
  outputFileSystem compiler = Some fs →
  typeof (chmod fs) = TFunction →
  lastIndexes (world (run_hook path_join rules compiler c σ schedule))
  = (resolve_assets rules (Object_keys (assets c)) σ).2.
Proof.
  intros Hfs Hf. unfold run_hook.
  destruct (fold_deliver_frame schedule (afterEmit path_join rules compiler c σ))
    as (_ & -> & _).
  rewrite (afterEmit_with_chmod path_join rules compiler c σ fs) by assumption.
  by destruct (Promise_all_reaction_frame
    {| world := mkWorld (mkCompilation (assets c)
                  (warnings c ++ (run_operations path_join rules compiler fs c σ
                                  ≫= op_sync_warnings)) (errors c))
                  (resolve_assets rules (Object_keys (assets c)) σ).2
                  (map (λ o, (op_path o, op_mode o))
                       (run_operations path_join rules compiler fs c σ)) [];
       mods := map mod_of_op (run_operations path_join rules compiler fs c σ);
       joined := false |}) as (_ & -> & _).
Qed.

(** X13. The hook writes the [lastIndex] of no regular expression but those
    of its own rules that carry the [g] or the [y] flag: every other entry of
    the store is after the run, and after any later delivery, what it was
    before. *)
Theorem other_regexps_untouched path_join rules compiler c σ schedule loc :
  ¬ may_write rules loc →
  lastIndexes (world (run_hook path_join rules compiler c σ schedule)) !! loc
  = σ !! loc.
Proof.
  intros H.
  destruct (outputFileSystem compiler) as [fs |] eqn:Hfs.
  - destruct (decide (typeof (chmod fs) = TFunction)) as [Hf | Hf].
    + rewrite (run_hook_lastIndexes _ _ _ _ _ fs) by assumption.
      by apply resolve_assets_frame.
    + rewrite run_hook_without_chmod by (right; by exists fs). reflexivity.
  - rewrite run_hook_without_chmod by (by left). reflexivity.
Qed.

Lemma other_regexps_untouched_witness :
  lastIndexes
    (world (run_hook posix_join global_rules
              (scenario_compiler (Some chmod_succeeds)) two_scripts_compilation
              {[ 0 := 2; 7 := 3 ]} [])) !! 7
  = Some 3.
Proof.
  etrans.
  - apply (other_regexps_untouched posix_join global_rules
             (scenario_compiler (Some chmod_succeeds)) two_scripts_compilation
             {[ 0 := 2; 7 := 3 ]} [] 7).
    intros (rule & r & Hin & Hp & _ & Hloc).
    apply elem_of_cons in Hin as [-> | Hin].
    + apply list_elem_of_singleton in Hp. injection Hp as ->. discriminate.
    + apply list_elem_of_singleton in Hin as ->.
      apply list_elem_of_singleton in Hp. discriminate.
  - vm_compute. reflexivity.
Defined.

(** ** Which assets get a call *)

Lemma run_hook_calls_cases path_join rules compiler c σ schedule :
  chmod_calls (world (run_hook path_join rules compiler c σ schedule)) = [] ∨
  chmod_calls (world (run_hook path_join rules compiler c σ schedule))
  = map (λ '(assetName, rule),
           (path_join (output_path compiler) assetName, permissions rule))
        (matched_assets rules (Object_keys (assets c)) σ).
Proof.
  destruct (outputFileSystem compiler) as [fs |] eqn:Hfs.
  - destruct (decide (typeof (chmod fs) = TFunction)) as [Hf | Hf].
    + right. by apply (run_hook_calls_matched _ _ _ _ _ fs).
    + left. rewrite run_hook_without_chmod by (right; by exists fs). reflexivity.
  - left. rewrite run_hook_without_chmod by (by left). reflexivity.
Qed.

(** X7. Every call to [chmod] is for an asset of the compilation that a
    pattern of a rule of the rule set matches (a string equal to the name, or
    a regular expression with a match in the name), with the join of the
    output directory and that name as path and the permissions of that rule
    as mode; this holds whatever the flags of the regular expressions and
    their [lastIndex]. *)
Theorem calls_only_for_matching_assets
    path_join rules compiler c σ schedule path mode :
  (path, mode)
  ∈ chmod_calls (world (run_hook path_join rules compiler c σ schedule)) →
  ∃ assetName rule pattern,
    assetName ∈ Object_keys (assets c) ∧ rule ∈ rules ∧
    pattern ∈ patterns rule ∧ matches assetName pattern = true ∧
    path = path_join (output_path compiler) assetName ∧
    mode = permissions rule.
Proof.
  destruct (run_hook_calls_cases path_join rules compiler c σ schedule)
    as [-> | ->].
  - intros H. by apply elem_of_nil in H.
  - intros H. apply list_elem_of_fmap in H as ([assetName rule] & E & Hin).
    injection E as -> ->.
    apply matched_assets_sound in Hin as (Hname & Hrule & pattern & Hp & Hm).
    by exists assetName, rule, pattern.
Qed.

Lemma calls_only_for_matching_assets_witness :
  ∃ assetName rule pattern,
    assetName ∈ ["a.js"; "b.js"] ∧ rule ∈ global_rules ∧
    pattern ∈ patterns rule ∧ matches assetName pattern = true ∧
    "/out/a.js" = posix_join "/out" assetName ∧
    JSNumber 493 = permissions rule.
Proof.
  apply (calls_only_for_matching_assets posix_join global_rules
           (scenario_compiler (Some chmod_succeeds)) two_scripts_compilation
           ∅ [] "/out/a.js" (JSNumber 493)).
  vm_compute. apply list_elem_of_here.
Defined.

Lemma matched_assets_sublist rules assetNames σ :
  (matched_assets rules assetNames σ).*1 `sublist_of` assetNames.
Proof.
  revert σ. induction assetNames as [| assetName rest IH]; intros σ.
  - constructor.
  - rewrite matched_assets_cons, fmap_app.
    destruct (matchingRule rules assetName σ).1; simpl.
    + apply sublist_skip, IH.
    + apply sublist_cons, IH.
Qed.

(** X8. The calls to [chmod] follow the order of the asset names and there
    is at most one per asset: their paths are the joins of the output
    directory with the names of a sublist of [Object.keys(compilation.assets)],
    so they are never more than the assets. *)
Theorem at_most_one_call_per_asset path_join rules compiler c σ schedule :
  ∃ assetNames,
    assetNames `sublist_of` Object_keys (assets c) ∧
    (chmod_calls (world (run_hook path_join rules compiler c σ schedule))).*1
    = path_join (output_path compiler) <$> assetNames ∧
    length (chmod_calls (world (run_hook path_join rules compiler c σ schedule)))
    ≤ length (assets c).
Proof.
  destruct (run_hook_calls_cases path_join rules compiler c σ schedule)
    as [-> | ->].
  - exists []. split; [apply sublist_nil_l|]. split; [reflexivity | simpl; lia].
  - exists (matched_assets rules (Object_keys (assets c)) σ).*1.
    pose proof (matched_assets_sublist rules (Object_keys (assets c)) σ) as Hs.
    split; [exact Hs|]. split.
    + rewrite <- !list_fmap_compose. apply list_fmap_ext.
      by intros i [assetName rule] _.
    + apply sublist_length in Hs.
      unfold Object_keys in Hs. rewrite !length_fmap in Hs.
      by rewrite length_map.
Qed.

(** ** Rules whose regular expressions keep no state *)

Lemma matched_assets_stateless rules assetNames σ :
  Forall (λ rule, Forall stateless (patterns rule)) rules →
  matched_assets rules assetNames σ
  = omap (λ assetName, (assetName,.) <$> first_match rules assetName) assetNames
  ∧ (resolve_assets rules assetNames σ).2 = σ.
Proof.
  intros H. induction assetNames as [| assetName rest [IH1 IH2]]; [done|].
  rewrite matched_assets_cons, resolve_assets_cons_store.
  rewrite matchingRule_stateless by assumption. simpl.
  rewrite IH1, IH2. split; [|reflexivity].
  destruct (first_match rules assetName); reflexivity.
Qed.

Lemma fmap_omap {A B C : Type} (f : B → C) (g : A → option B) (l : list A) :
  f <$> omap g l = omap (λ x, f <$> g x) l.
Proof.
  induction l as [| x l IH]; [reflexivity|].
  simpl. destruct (g x); simpl; [f_equal|]; exact IH.
Qed.

Lemma omap_ext_eq {A B : Type} (f g : A → option B) (l : list A) :
  (∀ x, f x = g x) → omap f l = omap g l.
Proof.
  intros H. induction l as [| x l IH]; [reflexivity|].
  simpl. rewrite H. destruct (g x); [f_equal|]; exact IH.
Qed.

(** X5. When no regular expression of the rules carries the [g] or the [y]
    flag, the hook calls [chmod] for exactly the assets that have a match
    result in the sense of the specification (the first rule, in order, with
    a pattern that matches the name), with the permissions of that rule, and
    it leaves every [lastIndex] as it was: the next run of the hook starts
    from the same state. *)
Theorem stateless_rules_give_first_match
    path_join rules compiler c σ fs schedule :
  Forall (λ rule, Forall stateless (patterns rule)) rules →
  outputFileSystem compiler = Some fs →
  typeof (chmod fs) = TFunction →
  chmod_calls (world (run_hook path_join rules compiler c σ schedule))
  = omap (λ assetName,
            (λ rule, (path_join (output_path compiler) assetName,
                      permissions rule)) <$> first_match rules assetName)
         (Object_keys (assets c)) ∧
  lastIndexes (world (run_hook path_join rules compiler c σ schedule)) = σ.
Proof.
  intros Hs Hfs Hf.
  destruct (matched_assets_stateless rules (Object_keys (assets c)) σ Hs)
    as [Hm Hσ].
  split.
  - rewrite (run_hook_calls_matched _ _ _ _ _ fs), Hm by assumption.
    rewrite fmap_omap. apply omap_ext_eq. intros assetName.
    by destruct (first_match rules assetName).
  - by rewrite (run_hook_lastIndexes _ _ _ _ _ fs), Hσ.
Qed.

Lemma stateless_rules_give_first_match_witness :
  chmod_calls
    (world (run_hook posix_join scenario_rules
              (scenario_compiler (Some chmod_throws)) scenario_compilation
              {[ 0 := 5 ]} []))
  = [("/out/script.js", JSNumber 493); ("/out/style.css", JSNumber 420)] ∧
  lastIndexes
    (world (run_hook posix_join scenario_rules
              (scenario_compiler (Some chmod_throws)) scenario_compilation
              {[ 0 := 5 ]} []))
  = {[ 0 := 5 ]}.
Proof.
  apply (stateless_rules_give_first_match posix_join scenario_rules
           (scenario_compiler (Some chmod_throws)) scenario_compilation
           {[ 0 := 5 ]} chmod_throws []).
  - repeat constructor.
  - reflexivity.
  - reflexivity.
Defined.

(** X6. With such rules the order of the assets does not matter: two
    compilations with the same asset names in different orders get the same
    calls, up to their order, whatever the state of the regular expressions
    and whatever the primitives do. *)
Theorem asset_order_is_irrelevant
    path_join rules compiler c1 c2 σ1 σ2 fs schedule1 schedule2 :
  Forall (λ rule, Forall stateless (patterns rule)) rules →
  outputFileSystem compiler = Some fs →
  typeof (chmod fs) = TFunction →
  Permutation (Object_keys (assets c1)) (Object_keys (assets c2)) →
  Permutation
    (chmod_calls (world (run_hook path_join rules compiler c1 σ1 schedule1)))
    (chmod_calls (world (run_hook path_join rules compiler c2 σ2 schedule2))).
Proof.
  intros Hs Hfs Hf Hp.
  rewrite !(run_hook_calls_matched _ _ _ _ _ fs) by assumption.
  destruct (matched_assets_stateless rules (Object_keys (assets c1)) σ1 Hs)
    as [-> _].
  destruct (matched_assets_stateless rules (Object_keys (assets c2)) σ2 Hs)
    as [-> _].
  apply Permutation_map. by rewrite Hp.
Qed.

Lemma asset_order_is_irrelevant_witness :
  Permutation
    (chmod_calls
       (world (run_hook posix_join scenario_rules
                 (scenario_compiler (Some chmod_succeeds))
                 scenario_compilation ∅ [])))
    (chmod_calls
       (world (run_hook posix_join scenario_rules
                 (scenario_compiler (Some chmod_succeeds))
                 scenario_compilation_reversed {[ 0 := 4 ]} []))).
Proof.
  apply (asset_order_is_irrelevant posix_join scenario_rules
           (scenario_compiler (Some chmod_succeeds))
           scenario_compilation scenario_compilation_reversed
           ∅ {[ 0 := 4 ]} chmod_succeeds [] []).
  - repeat constructor.
  - reflexivity.
  - reflexivity.
  - simpl. apply (Permutation_rev ["script.js"; "style.css"; "readme.txt"]).
Defined.

(** ** The primitive and the completion of the hook *)

(** X1. Which calls the hook makes, and what it leaves in the regular
    expressions, does not depend on what the primitive does with the calls:
    two output file systems with a [chmod] function get the same calls, with
    the same arguments in the same order, also when one of them throws or
    never calls back. *)
Theorem fan_out_ignores_the_primitive
    path_join rules compiler1 compiler2 c σ fs1 fs2 schedule1 schedule2 :
  output_path compiler1 = output_path compiler2 →
  outputFileSystem compiler1 = Some fs1 → typeof (chmod fs1) = TFunction →
  outputFileSystem compiler2 = Some fs2 → typeof (chmod fs2) = TFunction →
  chmod_calls (world (run_hook path_join rules compiler1 c σ schedule1))
  = chmod_calls (world (run_hook path_join rules compiler2 c σ schedule2)) ∧
  lastIndexes (world (run_hook path_join rules compiler1 c σ schedule1))
  = lastIndexes (world (run_hook path_join rules compiler2 c σ schedule2)).
Proof.
  intros Hout Hfs1 Hf1 Hfs2 Hf2. split.
  - rewrite (run_hook_calls_matched _ _ compiler1 _ _ fs1) by assumption.
    rewrite (run_hook_calls_matched _ _ compiler2 _ _ fs2) by assumption.
    by rewrite Hout.
  - rewrite (run_hook_lastIndexes _ _ compiler1 _ _ fs1) by assumption.
    by rewrite (run_hook_lastIndexes _ _ compiler2 _ _ fs2) by assumption.
Qed.

Lemma fan_out_ignores_the_primitive_witness :
  chmod_calls
    (world (run_hook posix_join scenario_rules
              (scenario_compiler (Some chmod_throws)) scenario_compilation ∅ []))
  = chmod_calls
      (world (run_hook posix_join scenario_rules
                (scenario_compiler (Some chmod_never_calls_back))
                scenario_compilation ∅ [0; 1])).
Proof.
  apply (fan_out_ignores_the_primitive posix_join scenario_rules
           (scenario_compiler (Some chmod_throws))
           (scenario_compiler (Some chmod_never_calls_back))
           scenario_compilation ∅ chmod_throws chmod_never_calls_back
           [] [0; 1]); reflexivity.
Defined.

(** The three ways a run of the hook can stand: the callback not invoked,
    invoked without error, or invoked with the reason of a rejected promise,
    which is then the one error recorded. *)
Lemma run_hook_completion_cases path_join rules compiler c σ schedule :
  let h := run_hook path_join rules compiler c σ schedule in
  (callback_calls (world h) = [] ∧ errors (compilation (world h)) = errors c) ∨
  (callback_calls (world h) = [None] ∧
   errors (compilation (world h)) = errors c) ∨
  (∃ e, callback_calls (world h) = [Some e] ∧
        errors (compilation (world h))
        = errors c ++ [new_Error (msg_unexpected e)]).
Proof.
  intros h. subst h.
  destruct (outputFileSystem compiler) as [fs |] eqn:Hfs.
  - destruct (decide (typeof (chmod fs) = TFunction)) as [Hf | Hf].
    + destruct (first_rejection
                  (map mod_of_op (run_operations path_join rules compiler fs c σ)))
        as [e |] eqn:Hr.
      * right; right. exists e.
        destruct (run_hook_rejected path_join rules compiler c σ fs Hfs Hf e
                    schedule Hr) as [He Hc]. done.
      * destruct (run_hook_not_rejected path_join rules compiler c σ fs Hfs Hf
                    schedule Hr) as [He Hc].
        destruct (forallb _ _); [right; left | left]; done.
    + right; left.
      rewrite run_hook_without_chmod by (right; by exists fs). done.
  - right; left. rewrite run_hook_without_chmod by (by left). done.
Qed.

(** ** A host callback that may throw *)

(** The turn of the tapped function is its run to the return, followed by
    the reaction. *)
Lemma afterEmit_reaction path_join rules compiler c σ :
  afterEmit path_join rules compiler c σ
  = Promise_all_reaction (afterEmit_return path_join rules compiler c σ).
Proof.
  unfold afterEmit, afterEmit_return.
  destruct (outputFileSystem compiler) as [fs |]; [|reflexivity].
  destruct (bool_decide _); [reflexivity|].
  by destruct (map_assets _ _ _ _ _ _) as [promises w].
Qed.

(** With a usable [chmod] the tapped function returns without having invoked
    the callback. *)
Lemma afterEmit_return_with_chmod path_join rules compiler c σ fs :
  outputFileSystem compiler = Some fs →
  typeof (chmod fs) = TFunction →
  afterEmit_return path_join rules compiler c σ
  = {| world :=
         mkWorld (mkCompilation (assets c)
                    (warnings c ++
                     (run_operations path_join rules compiler fs c σ
                      ≫= op_sync_warnings)) (errors c))
                 (resolve_assets rules (Object_keys (assets c)) σ).2
                 (map (λ o, (op_path o, op_mode o))
                    (run_operations path_join rules compiler fs c σ)) [];
       mods := map mod_of_op (run_operations path_join rules compiler fs c σ);
       joined := false |}.
Proof.
  intros Hfs Hf. unfold afterEmit_return. rewrite Hfs.
  rewrite bool_decide_eq_false_2 by (intros H; by apply H).
  destruct c as [a ws es]. cbn [assets warnings errors] in *.
  destruct (map_assets_spec path_join rules fs (output_path compiler)
              (Object_keys a) a ws es σ [] []) as (promises & -> & ->).
  reflexivity.
Qed.

Lemma afterEmit_return_cases path_join rules compiler c σ :
  (capable compiler = true ∧
   joined (afterEmit_return path_join rules compiler c σ) = false ∧
   callback_calls (world (afterEmit_return path_join rules compiler c σ)) = []) ∨
  (capable compiler = false ∧
   afterEmit_return path_join rules compiler c σ
   = skip_without_chmod (mkWorld c σ [] [])).
Proof.
  unfold capable.
  destruct (outputFileSystem compiler) as [fs |] eqn:Hfs.
  - destruct (decide (typeof (chmod fs) = TFunction)) as [Hf | Hf].
    + left. rewrite bool_decide_eq_true_2 by assumption.
      rewrite (afterEmit_return_with_chmod _ _ _ _ _ fs) by assumption. done.
    + right. rewrite bool_decide_eq_false_2 by assumption.
      split; [reflexivity|]. unfold afterEmit_return. rewrite Hfs.
      by rewrite bool_decide_eq_true_2.
  - right. split; [reflexivity|]. unfold afterEmit_return. by rewrite Hfs.
Qed.

Lemma with_host_callback_not_called cb usable w :
  callback_calls w = [] → with_host_callback cb usable w = w.
Proof. intros H. unfold with_host_callback. rewrite H. by destruct usable. Qed.

(** The callback of an operation and the reaction of [catch] write to
    different parts of the world. *)
Lemma with_host_callback_chmod_callback cb usable path err w :
  chmod_callback path err (with_host_callback cb usable w)
  = with_host_callback cb usable (chmod_callback path err w).
Proof.
  unfold with_host_callback. destruct usable; [|reflexivity].
  destruct err as [e |]; [|reflexivity]. cbn [chmod_callback push_warning callback_calls].
  destruct (callback_calls w) as [| [e1 |] [| ? ?]]; try reflexivity.
  destruct (cb 0 None); reflexivity.
Qed.

(** The reaction with a host callback, from the reaction with a callback
    that returns. *)
Lemma Promise_all_reaction_host_world cb h :
  joined h = false →
  callback_calls (world h) = [] →
  Promise_all_reaction_host cb h
  = {| world := with_host_callback cb true (world (Promise_all_reaction h));
       mods := mods (Promise_all_reaction h);
       joined := joined (Promise_all_reaction h) |}.
Proof.
  intros Hj Hc. unfold Promise_all_reaction_host, Promise_all_reaction.
  rewrite Hj, Hc.
  destruct (first_rejection (mods h)) as [err |].
  - unfold with_host_callback. cbn. rewrite Hc. reflexivity.
  - destruct (forallb _ _).
    + unfold with_host_callback. cbn. rewrite Hc. cbn.
      destruct (cb 0 None); reflexivity.
    + rewrite with_host_callback_not_called by assumption.
      destruct h. simpl in *. by rewrite Hj.
Qed.

Lemma Promise_all_reaction_not_joined h :
  joined (Promise_all_reaction h) = false → Promise_all_reaction h = h.
Proof.
  unfold Promise_all_reaction.
  destruct (joined h) eqn:Hj; [done|].
  destruct (first_rejection (mods h)); [done|].
  by destruct (forallb _ _).
Qed.

(** The runs with a host callback and with a callback that returns go in
    step: same promises, same progress, and the worlds related as
    [with_host_callback] says. *)
Lemma fold_deliver_host cb usable schedule hh hp :
  mods hh = mods hp →
  joined hh = joined hp →
  world hh = with_host_callback cb usable (world hp) →
  (joined hp = false → usable = true ∧ callback_calls (world hp) = []) →
  fold_left (deliver_host cb) schedule hh
  = {| world := with_host_callback cb usable
                  (world (fold_left deliver schedule hp));
       mods := mods (fold_left deliver schedule hp);
       joined := joined (fold_left deliver schedule hp) |}.
Proof.
  revert hh hp. induction schedule as [| i schedule IH];
    intros hh hp Hm Hj Hw Hn.
  - simpl. destruct hh. simpl in *. by rewrite Hm, Hj, Hw.
  - simpl. apply IH; clear IH.
    + unfold deliver_host, deliver. rewrite Hm.
      destruct (mods hp !! i) as [m |]; [|exact Hm].
      destruct (queued m) as [| err rest]; [exact Hm|].
      rewrite Promise_all_reaction_mods.
      unfold Promise_all_reaction_host. cbn [joined mods].
      repeat case_match; reflexivity.
    + unfold deliver_host, deliver. rewrite Hm.
      destruct (mods hp !! i) as [m |]; [|exact Hj].
      destruct (queued m) as [| err rest]; [exact Hj|].
      unfold Promise_all_reaction_host, Promise_all_reaction.
      cbn [joined mods]. rewrite Hj.
      repeat case_match; reflexivity.
    + unfold deliver_host, deliver. rewrite Hm.
      destruct (mods hp !! i) as [m |]; [|exact Hw].
      destruct (queued m) as [| err rest]; [exact Hw|].
      rewrite Hw, Hj, with_host_callback_chmod_callback.
      destruct (joined hp) eqn:Ej.
      * reflexivity.
      * destruct (Hn eq_refl) as [-> Hc].
        rewrite with_host_callback_not_called
          by (by destruct (chmod_callback_frame (filePath m) err (world hp))
                as (_ & _ & _ & _ & ->)).
        rewrite Promise_all_reaction_host_world; [reflexivity | reflexivity |].
        cbn [world].
        by destruct (chmod_callback_frame (filePath m) err (world hp))
          as (_ & _ & _ & _ & ->).
    + intros Hj'. unfold deliver in *.
      destruct (mods hp !! i) as [m |]; [|by apply Hn].
      destruct (queued m) as [| err rest]; [by apply Hn|].
      pose proof (Promise_all_reaction_not_joined _ Hj') as E.
      rewrite E in Hj' |- *. cbn [joined world] in *.
      destruct (Hn Hj') as [-> Hc].
      split; [reflexivity|].
      by destruct (chmod_callback_frame (filePath m) err (world hp))
        as (_ & _ & _ & _ & ->).
Qed.

(** The run with a host callback, from the run with a callback that
    returns. *)
Lemma run_hook_host_world cb path_join rules compiler c σ schedule :
  run_hook_host cb path_join rules compiler c σ schedule
  = {| world := with_host_callback cb (capable compiler)
                  (world (run_hook path_join rules compiler c σ schedule));
       mods := mods (run_hook path_join rules compiler c σ schedule);
       joined := joined (run_hook path_join rules compiler c σ schedule) |}.
Proof.
  unfold run_hook_host, run_hook, afterEmit_host.
  rewrite afterEmit_reaction.
  destruct (afterEmit_return_cases path_join rules compiler c σ)
    as [(Hcap & Hj & Hc) | (Hcap & E)]; rewrite Hcap.
  - apply fold_deliver_host.
    + rewrite Promise_all_reaction_host_world by assumption. reflexivity.
    + rewrite Promise_all_reaction_host_world by assumption. reflexivity.
    + rewrite Promise_all_reaction_host_world by assumption. reflexivity.
    + intros Hj'. split; [reflexivity|].
      by rewrite (Promise_all_reaction_not_joined _ Hj').
  - rewrite E. apply fold_deliver_host; try reflexivity. discriminate.
Qed.

(** X2. With a host callback that may throw, whatever the compiler, the
    primitive and the later deliveries: the hook invokes its callback at most
    twice and records at most one error. Either the callback is not invoked
    (yet), or it is invoked once without error, or once with the reason of a
    rejected promise, which is recorded as "unexpected error"; or, [catch]
    being chained after [then], it is invoked without error, throws, and is
    invoked a second time with what it threw, which is recorded as
    "unexpected error". When the first invocation returns normally the run
    is that of the model with a callback that returns, and the callback is
    invoked at most once; when the hook has a usable [chmod] and reports
    success to a callback that throws, the second invocation does occur. *)
Theorem callback_invoked_at_most_twice
    cb path_join rules compiler c σ schedule :
  let h := run_hook_host cb path_join rules compiler c σ schedule in
  let calls := callback_calls (world h) in
  let errs := errors (compilation (world h)) in
  length calls ≤ 2 ∧
  ((calls = [] ∧ errs = errors c) ∨
   (calls = [None] ∧ errs = errors c) ∨
   (∃ e, calls = [Some e] ∧
         errs = errors c ++ [new_Error (msg_unexpected e)]) ∨
   (∃ e, cb 0 None = Some e ∧ calls = [None; Some e] ∧
         errs = errors c ++ [new_Error (msg_unexpected e)])) ∧
  (cb 0 None = None →
   h = run_hook path_join rules compiler c σ schedule ∧ length calls ≤ 1) ∧
  (∀ fs e,
     outputFileSystem compiler = Some fs →
     typeof (chmod fs) = TFunction →
     callback_calls (world (run_hook path_join rules compiler c σ schedule))
     = [None] →
     cb 0 None = Some e →
     calls = [None; Some e] ∧
     errs = errors c ++ [new_Error (msg_unexpected e)]).
Proof.
  intros h calls errs. subst calls errs h.
  rewrite run_hook_host_world. cbn [world].
  pose proof (run_hook_completion_cases path_join rules compiler c σ schedule)
    as Hcases. cbv zeta in Hcases.
  set (hp := run_hook path_join rules compiler c σ schedule) in *.
  assert (Hfour :
    (callback_calls (with_host_callback cb (capable compiler) (world hp)) = [] ∧
     errors (compilation (with_host_callback cb (capable compiler) (world hp)))
     = errors c) ∨
    (callback_calls (with_host_callback cb (capable compiler) (world hp))
     = [None] ∧
     errors (compilation (with_host_callback cb (capable compiler) (world hp)))
     = errors c) ∨
    (∃ e, callback_calls (with_host_callback cb (capable compiler) (world hp))
          = [Some e] ∧
          errors (compilation
                    (with_host_callback cb (capable compiler) (world hp)))
          = errors c ++ [new_Error (msg_unexpected e)]) ∨
    (∃ e, cb 0 None = Some e ∧
          callback_calls (with_host_callback cb (capable compiler) (world hp))
          = [None; Some e] ∧
          errors (compilation
                    (with_host_callback cb (capable compiler) (world hp)))
          = errors c ++ [new_Error (msg_unexpected e)])).
  { unfold with_host_callback. destruct (capable compiler).
    - destruct Hcases as [[Hc He] | [[Hc He] | (e & Hc & He)]]; rewrite Hc.
      + left. done.
      + destruct (cb 0 None) as [e |] eqn:Hcb.
        * right; right; right. exists e. cbn. rewrite Hc, He. done.
        * right; left. done.
      + right; right; left. exists e. done.
    - destruct Hcases as [[Hc He] | [[Hc He] | (e & Hc & He)]].
      + left. done.
      + right; left. done.
      + right; right; left. exists e. done. }
  split; [|split; [exact Hfour|split]].
  - destruct Hfour as [[-> _] | [[-> _] | [(e & -> & _) | (e & _ & -> & _)]]];
      simpl; lia.
  - intros Hcb.
    assert (E : with_host_callback cb (capable compiler) (world hp) = world hp).
    { unfold with_host_callback. rewrite Hcb.
      destruct (capable compiler); [|reflexivity].
      by destruct (callback_calls (world hp)) as [| [?|] [| ? ?]]. }
    rewrite E. split; [by destruct hp|].
    destruct Hcases as [[-> _] | [[-> _] | (e & -> & _)]]; simpl; lia.
  - intros fs e Hfs Hf Hc Hcb. unfold capable. rewrite Hfs.
    rewrite bool_decide_eq_true_2 by assumption.
    unfold with_host_callback. rewrite Hc, Hcb. cbn. rewrite Hc.
    split; [reflexivity|]. f_equal.
    destruct Hcases as [[Hc' He] | [[Hc' He] | (e' & Hc' & He)]];
      congruence.
Qed.

Lemma callback_invoked_at_most_twice_witness :
  callback_calls
    (world (run_hook_host callback_throws_on_success posix_join scenario_rules
              (scenario_compiler (Some chmod_succeeds_later))
              scenario_compilation ∅ [1; 0]))
  = [None; Some callback_error] ∧
  errors
    (compilation
       (world (run_hook_host callback_throws_on_success posix_join scenario_rules
                 (scenario_compiler (Some chmod_succeeds_later))
                 scenario_compilation ∅ [1; 0])))
  = [new_Error (msg_unexpected callback_error)].
Proof.
  apply (proj2 (proj2 (proj2
           (callback_invoked_at_most_twice callback_throws_on_success
              posix_join scenario_rules
              (scenario_compiler (Some chmod_succeeds_later))
              scenario_compilation ∅ [1; 0]))) chmod_succeeds_later
           callback_error).
  - reflexivity.
  - reflexivity.
  - vm_compute. reflexivity.
  - reflexivity.
Defined.

(** ** The sinks of the compilation, and primitives that stay silent *)

(** X4. The hook only appends to the warnings and to the errors of the
    compilation: the entries that were there stay, in their order, at the
    front; and it leaves the assets as they are. *)
Theorem sinks_are_append_only path_join rules compiler c σ schedule :
  let h := run_hook path_join rules compiler c σ schedule in
  warnings c `prefix_of` warnings (compilation (world h)) ∧
  errors c `prefix_of` errors (compilation (world h)) ∧
  assets (compilation (world h)) = assets c.
Proof.
  intros h. subst h. split; [|split].
  - destruct (outputFileSystem compiler) as [fs |] eqn:Hfs.
    + destruct (decide (typeof (chmod fs) = TFunction)) as [Hf | Hf].
      * destruct (run_hook_warnings path_join rules compiler c σ fs Hfs Hf
                    schedule) as (W & -> & _). by exists W.
      * rewrite run_hook_without_chmod by (right; by exists fs).
        by eexists.
    + rewrite run_hook_without_chmod by (by left). by eexists.
  - destruct (run_hook_completion_cases path_join rules compiler c σ schedule)
      as [[_ ->] | [[_ ->] | (e & _ & ->)]]; [done | done | by eexists].
  - destruct (outputFileSystem compiler) as [fs |] eqn:Hfs.
    + destruct (decide (typeof (chmod fs) = TFunction)) as [Hf | Hf].
      * unfold run_hook.
        destruct (fold_deliver_frame schedule
                    (afterEmit path_join rules compiler c σ)) as (_ & _ & ->).
        rewrite (afterEmit_with_chmod path_join rules compiler c σ fs)
          by assumption.
        by destruct (Promise_all_reaction_frame
          {| world := mkWorld (mkCompilation (assets c)
                        (warnings c ++
                         (run_operations path_join rules compiler fs c σ
                          ≫= op_sync_warnings)) (errors c))
                        (resolve_assets rules (Object_keys (assets c)) σ).2
                        (map (λ o, (op_path o, op_mode o))
                           (run_operations path_join rules compiler fs c σ)) [];
             mods := map mod_of_op
                       (run_operations path_join rules compiler fs c σ);
             joined := false |}) as (_ & _ & ->).
      * rewrite run_hook_without_chmod by (right; by exists fs). reflexivity.
    + rewrite run_hook_without_chmod by (by left). reflexivity.
Qed.

Lemma deliver_keeps_silent h i :
  (∃ k m, mods h !! k = Some m ∧ promise m = Pending ∧ queued m = []) →
  (∃ k m, mods (deliver h i) !! k = Some m ∧ promise m = Pending ∧
          queued m = []).
Proof.
  intros (k & m & Hk & Hp & Hq). unfold deliver.
  destruct (mods h !! i) as [mi |] eqn:Hi; [|by exists k, m].
  destruct (queued mi) as [| err rest] eqn:Hqi; [by exists k, m|].
  rewrite Promise_all_reaction_mods. simpl.
  exists k, m. split; [|done].
  rewrite list_lookup_insert_ne; [exact Hk|].
  intros ->. rewrite Hk in Hi. injection Hi as ->. congruence.
Qed.

Lemma pending_not_all_fulfilled (ms : list Mod) k m :
  ms !! k = Some m → promise m = Pending →
  forallb (λ m, is_fulfilled (promise m)) ms = false.
Proof.
  revert k. induction ms as [| m0 ms IH]; intros k Hk Hp; [done|].
  destruct k as [| k]; simpl in *.
  - injection Hk as ->. by rewrite Hp.
  - rewrite (IH k Hk Hp). apply andb_false_r.
Qed.

(** X3. There is no timeout: when the primitive returns from the call for
    some matched asset without having invoked the callback, and never
    invokes it, the hook never reports success; and when moreover no call
    throws, its callback is never invoked at all, whatever else is
    delivered. *)
Theorem silent_operation_blocks_completion
    path_join rules compiler c σ fs schedule o :
  outputFileSystem compiler = Some fs →
  typeof (chmod fs) = TFunction →
  let h := run_hook path_join rules compiler c σ schedule in
  let ops := run_operations path_join rules compiler fs c σ in
  o ∈ ops →
  sync_callbacks (op_run o) = [] →
  later_callbacks (op_run o) = [] →
  thrown (op_run o) = None →
  callback_calls (world h) ≠ [None] ∧
  (Forall (λ o', thrown (op_run o') = None) ops → callback_calls (world h) = []).
Proof.
  intros Hfs Hf h ops Hin Hs Hl Ht. subst h ops.
  assert (Hsilent : ∃ k m,
            mods (run_hook path_join rules compiler c σ schedule) !! k = Some m ∧
            promise m = Pending ∧ queued m = []).
  { unfold run_hook.
    apply (fold_deliver_invariant
             (λ h, ∃ k m, mods h !! k = Some m ∧ promise m = Pending ∧
                          queued m = [])).
    - apply deliver_keeps_silent.
    - rewrite (afterEmit_with_chmod path_join rules compiler c σ fs)
        by assumption.
      rewrite Promise_all_reaction_mods. simpl.
      apply list_elem_of_lookup in Hin as [k Hk].
      exists k, (mod_of_op o). split; [by rewrite list_lookup_fmap, Hk|].
      unfold mod_of_op, op_promise. simpl. by rewrite Hs, Ht, Hl. }
  destruct Hsilent as (k & m & Hk & Hp & _).
  pose proof (pending_not_all_fulfilled _ k m Hk Hp) as Hnot.
  destruct (first_rejection
              (map mod_of_op (run_operations path_join rules compiler fs c σ)))
    as [e |] eqn:Hr.
  - destruct (run_hook_rejected path_join rules compiler c σ fs Hfs Hf e
                schedule Hr) as [_ ->].
    split; [discriminate|]. intros Hnone.
    apply first_rejection_none in Hnone. congruence.
  - destruct (run_hook_not_rejected path_join rules compiler c σ fs Hfs Hf
                schedule Hr) as [_ Hc].
    rewrite Hnot in Hc. rewrite Hc. split; [discriminate | done].
Qed.

Lemma silent_operation_blocks_completion_witness :
  callback_calls
    (world (run_hook posix_join scenario_rules
              (scenario_compiler (Some chmod_never_calls_back))
              scenario_compilation ∅ [0; 1; 0]))
  = [].
Proof.
  apply (silent_operation_blocks_completion posix_join scenario_rules
           (scenario_compiler (Some chmod_never_calls_back))
           scenario_compilation ∅ chmod_never_calls_back [0; 1; 0]
           {| op_path := "/out/script.js"; op_mode := JSNumber 493;
              op_run := {| sync_callbacks := []; thrown := None;
                           later_callbacks := [] |} |}
           eq_refl eq_refl).
  - vm_compute. apply list_elem_of_here.
  - reflexivity.
  - reflexivity.
  - reflexivity.
  - vm_compute. repeat constructor.
Defined.

(** X9. Whatever the primitive does, once it has made the invocations it
    scheduled, the warnings added by the run are, up to their order, one for
    every error it passed to a callback, with the path of the operation and
    the message of the error: an error reported twice is recorded twice, and
    errors reported by operations that also threw are recorded too. *)
Theorem one_warning_per_reported_error path_join rules compiler c σ fs schedule :
  outputFileSystem compiler = Some fs →
  typeof (chmod fs) = TFunction →
  let h := run_hook path_join rules compiler c σ schedule in
  let ops := run_operations path_join rules compiler fs c σ in
  drained h →
  ∃ W, warnings (compilation (world h)) = warnings c ++ W ∧
       Permutation W
         (ops ≫= (λ o, omap (λ err, (λ e, new_Error (msg_could_not_set
                                                       (op_path o) e)) <$> err)
                            (sync_callbacks (op_run o) ++
                             later_callbacks (op_run o)))).
Proof.
  intros Hfs Hf h ops Hd. subst h ops.
  destruct (run_hook_warnings path_join rules compiler c σ fs Hfs Hf schedule)
    as (W & HW & HP).
  exists W. split; [exact HW|].
  rewrite pending_warnings_drained, app_nil_r in HP by exact Hd.
  exact HP.
Qed.

Lemma one_warning_per_reported_error_witness :
  ∃ W, warnings
         (compilation
            (world (run_hook posix_join scenario_rules
                      (scenario_compiler (Some chmod_reports_twice))
                      script_compilation ∅ [0])))
       = W ∧
       Permutation W
         [new_Error (msg_could_not_set "/out/script.js" permission_denied);
          new_Error (msg_could_not_set "/out/script.js" permission_denied)].
Proof.
  destruct (one_warning_per_reported_error posix_join scenario_rules
              (scenario_compiler (Some chmod_reports_twice))
              script_compilation ∅ chmod_reports_twice [0] eq_refl eq_refl)
    as (W & HW & HP).
  - vm_compute. repeat constructor.
  - exists W. split; [exact HW | exact HP].
Defined.

(** X12. The channel that comes first decides: when the primitive invokes
    the callback inside every call, no exception it throws afterwards is
    ever reported. When the tapped function returns, the callback of the
    hook has not been invoked; the reaction to [Promise.all(mods)] that
    follows the return invokes it, once and without error, before any later
    delivery, and no later delivery adds an invocation or an error (the
    callback of the hook returning normally). *)
Theorem exception_after_callback_never_reported
    path_join rules compiler c σ fs schedule :
  outputFileSystem compiler = Some fs →
  typeof (chmod fs) = TFunction →
  (∀ n path mode, sync_callbacks (chmod_run fs n path mode) ≠ []) →
  let h := run_hook path_join rules compiler c σ schedule in
  callback_calls (world (afterEmit_return path_join rules compiler c σ)) = [] ∧
  afterEmit path_join rules compiler c σ
  = Promise_all_reaction (afterEmit_return path_join rules compiler c σ) ∧
  callback_calls (world (afterEmit path_join rules compiler c σ)) = [None] ∧
  errors (compilation (world h)) = errors c ∧
  callback_calls (world h) = [None].
Proof.
  intros Hfs Hf Hsync h. subst h.
  assert (Hops : Forall (λ o, sync_callbacks (op_run o) ≠ [])
                   (run_operations path_join rules compiler fs c σ)).
  { apply (operations_Forall (λ r, sync_callbacks r ≠ [])). exact Hsync. }
  assert (Hful : Forall (λ o, promise (mod_of_op o) = Fulfilled)
                   (run_operations path_join rules compiler fs c σ)).
  { eapply Forall_impl; [exact Hops|]. intros o Ho.
    unfold mod_of_op, op_promise. simpl in *.
    destruct (sync_callbacks (op_run o)); [congruence | reflexivity]. }
  assert (Hr : first_rejection
                 (map mod_of_op (run_operations path_join rules compiler fs c σ))
               = None).
  { induction Hful as [| o l Ho _ IH]; [reflexivity|].
    simpl in *. rewrite Ho. apply IH. by apply Forall_cons in Hops as [_ ?]. }
  assert (Hrun : ∀ schedule,
    errors (compilation (world (run_hook path_join rules compiler c σ schedule)))
    = errors c ∧
    callback_calls (world (run_hook path_join rules compiler c σ schedule))
    = [None]).
  { intros schedule'.
    destruct (run_hook_not_rejected path_join rules compiler c σ fs Hfs Hf
                schedule' Hr) as [He Hc].
    split; [exact He|]. rewrite Hc.
    assert (Hall : Forall (λ m, promise m = Fulfilled)
                     (mods (run_hook path_join rules compiler c σ schedule'))).
    { apply (run_hook_mods path_join rules compiler c σ fs Hfs Hf
               (λ m, promise m = Fulfilled)); [|exact Hful].
      intros m err rest Hm _. simpl. by rewrite Hm. }
    rewrite (proj2 (forallb_forall _ _)); [reflexivity|].
    intros m Hin. apply list_elem_of_In in Hin.
    rewrite Forall_forall in Hall. by rewrite (Hall m Hin). }
  split; [|split; [|split]].
  - by rewrite (afterEmit_return_with_chmod _ _ _ _ _ fs).
  - apply afterEmit_reaction.
  - exact (proj2 (Hrun [])).
  - exact (Hrun schedule).
Qed.

Lemma exception_after_callback_never_reported_witness :
  callback_calls
    (world (afterEmit_return posix_join scenario_rules
              (scenario_compiler (Some chmod_calls_back_then_throws))
              scenario_compilation ∅))
  = [] ∧
  afterEmit posix_join scenario_rules
    (scenario_compiler (Some chmod_calls_back_then_throws))
    scenario_compilation ∅
  = Promise_all_reaction
      (afterEmit_return posix_join scenario_rules
         (scenario_compiler (Some chmod_calls_back_then_throws))
         scenario_compilation ∅) ∧
  callback_calls
    (world (afterEmit posix_join scenario_rules
              (scenario_compiler (Some chmod_calls_back_then_throws))
              scenario_compilation ∅))
  = [None] ∧
  errors
    (compilation
       (world (run_hook posix_join scenario_rules
                 (scenario_compiler (Some chmod_calls_back_then_throws))
                 scenario_compilation ∅ [])))
  = [] ∧
  callback_calls
    (world (run_hook posix_join scenario_rules
              (scenario_compiler (Some chmod_calls_back_then_throws))
              scenario_compilation ∅ []))
  = [None].
Proof.
  apply (exception_after_callback_never_reported posix_join scenario_rules
           (scenario_compiler (Some chmod_calls_back_then_throws))
           scenario_compilation ∅ chmod_calls_back_then_throws []).
  - reflexivity.
  - reflexivity.
  - intros n path mode. discriminate.
Defined.

(** ** The constructor, once more *)

(** X10. The constructor returns a rule set exactly for the valid
    configurations: the options are an object, their [rules] is an array,
    and every rule is an object with a [permissions] that is not
    [undefined] and a [patterns] that is a string, a regular expression or
    an array. The rule set is then the list of the rules in normal form. *)
Theorem constructor_accepts_exactly_valid options rs :
  constructor options = Ok rs ↔
  is_object options ∧
  ∃ rule_list,
    field options "rules" = JSArray rule_list ∧
    Forall (λ rule, is_object rule ∧
                    field rule "permissions" ≠ JSUndefined ∧
                    valid_patterns (field rule "patterns")) rule_list ∧
    rs = map (λ rule, {| permissions := field rule "permissions";
                         patterns := pattern_list (field rule "patterns") |})
             rule_list.
Proof.
  split.
  - intros H. apply constructor_Ok_inv in H as (rule_list & Ho & Hr & Hwf & ->).
    split; [exact Ho|]. exists rule_list. split; [exact Hr|]. split; [|done].
    eapply Forall_impl; [exact Hwf|]. intros rule Hrule.
    split; [|split].
    + destruct (is_object_dec rule) as [H | H]; [exact H|].
      destruct (Hrule NotAnObject H).
    + exact (Hrule MissingPermissions).
    + destruct (rule_classification rule) as [_ | [v Hv]].
      * pose proof (Hrule InvalidPatterns) as Hn. simpl in Hn.
        apply valid_patterns_guard.
        destruct (_ && _ && _) eqn:E; [|reflexivity].
        exfalso. apply Hn. intros Hv. apply valid_patterns_guard in Hv.
        congruence.
      * destruct Hv as [Hv _]. destruct (Hrule v Hv).
  - intros (Ho & rule_list & Hr & Hv & ->).
    rewrite constructor_object, Hr by assumption.
    apply Array_map_well_formed.
    eapply Forall_impl; [exact Hv|]. intros rule (? & ? & ?).
    by apply well_formed_intro.
Qed.

Lemma normalized_to_config rule :
  permissions rule ≠ JSUndefined →
  well_formed_rule (to_config rule) ∧ normalized (to_config rule) = rule.
Proof.
  intros Hp. split.
  - apply well_formed_intro.
    + split; [reflexivity | discriminate].
    + exact Hp.
    + right; right. reflexivity.
  - by destruct rule.
Qed.

(** X11. A rule set is a fixed point of the constructor: written back as a
    configuration, each rule with its permissions and with its pattern list
    as an array, it is accepted and gives the same rule set again. *)
Theorem rule_set_round_trip options rs :
  constructor options = Ok rs →
  constructor (options_object (to_config <$> rs)) = Ok rs.
Proof.
  intros H. apply constructor_Ok_inv in H as (rule_list & _ & _ & Hwf & ->).
  rewrite constructor_object by (split; [reflexivity | discriminate]).
  simpl.
  assert (Hp : Forall (λ rule, permissions rule ≠ JSUndefined)
                 (map normalized rule_list)).
  { apply Forall_map. eapply Forall_impl; [exact Hwf|].
    intros rule Hrule. exact (Hrule MissingPermissions). }
  rewrite Array_map_well_formed.
  - f_equal. induction Hp as [| rule l Hrule _ IH]; [reflexivity|].
    simpl. f_equal; [|exact IH].
    by destruct (normalized_to_config rule Hrule).
  - apply Forall_fmap. eapply Forall_impl; [exact Hp|].
    intros rule Hrule. by destruct (normalized_to_config rule Hrule).
Qed.

Lemma rule_set_round_trip_witness :
  constructor
    (options_object
       (to_config <$> [{| permissions := JSNumber 0;
                          patterns := [JSString "script.js"] |}]))
  = Ok [{| permissions := JSNumber 0; patterns := [JSString "script.js"] |}].
Proof.
  apply (rule_set_round_trip zero_options
           [{| permissions := JSNumber 0; patterns := [JSString "script.js"] |}]).
  reflexivity.
Defined.

Lemma constructor_accepts_exactly_valid_witness :
  constructor junk_options
  = Ok [{| permissions := JSNumber 493;
           patterns := [JSNumber 5; JSNull; JSObject []] |}].
Proof.
  apply (proj2 (constructor_accepts_exactly_valid junk_options _)).
  split; [split; [reflexivity | discriminate]|].
  exists [rule_object (JSNumber 493) (JSArray [JSNumber 5; JSNull; JSObject []])].
  split; [reflexivity|]. split; [|reflexivity].
  constructor; [|constructor].
  split; [split; [reflexivity | discriminate]|].
  split; [discriminate|]. right; right. reflexivity.
Defined.

(** ** Short circuits of the rule lookup *)

Lemma Array_find_None_app {A : Type} (f : A → Matching bool) pre post σ σ1 :
  Array_find f pre σ = (None, σ1) →
  Array_find f (pre ++ post) σ = Array_find f post σ1.
Proof.
  revert σ. induction pre as [| y pre IH]; intros σ; simpl.
  - by intros [= <-].
  - destruct (f y σ) as [[] σy]; [discriminate|]. apply IH.
Qed.

(** X14. The rule lookup stops at the rule it finds: the rules after it are
    not consulted, so replacing them by any others changes neither the rule
    found nor the [lastIndex] of any regular expression; and when no rule is
    found, rules appended to the rule set are looked up from the state the
    lookup has left. *)
Theorem later_rules_never_consulted rules assetName σ :
  (∀ rule σ',
     matchingRule rules assetName σ = (Some rule, σ') →
     ∃ before after,
       rules = before ++ rule :: after ∧
       ∀ others,
         matchingRule (before ++ rule :: others) assetName σ = (Some rule, σ')) ∧
  (∀ σ' more,
     matchingRule rules assetName σ = (None, σ') →
     matchingRule (rules ++ more) assetName σ = matchingRule more assetName σ').
Proof.
  split.
  - intros rule σ' H.
    apply Array_find_Some in H as (before & after & σ1 & -> & Hpre & Hx).
    exists before, after. split; [reflexivity|].
    intros others. by apply (Array_find_first _ _ _ _ _ σ1).
  - intros σ' more H. by apply Array_find_None_app.
Qed.

Lemma later_rules_never_consulted_witness :
  ∃ before after,
    scenario_rules
    = before ++ {| permissions := JSNumber 493;
                   patterns := [JSRegExp re_js] |} :: after ∧
    ∀ others,
      matchingRule
        (before ++ {| permissions := JSNumber 493;
                      patterns := [JSRegExp re_js] |} :: others) "script.js" ∅
      = (Some {| permissions := JSNumber 493; patterns := [JSRegExp re_js] |}, ∅).
Proof.
  apply (proj1 (later_rules_never_consulted scenario_rules "script.js" ∅)).
  vm_compute. reflexivity.
Defined.

(** ** Runs without a matched asset, and primitives that answer at once *)

Lemma deliver_drained h i : drained h → deliver h i = h.
Proof.
  intros Hd. unfold deliver.
  destruct (mods h !! i) as [m |] eqn:Hi; [|reflexivity].
  unfold drained in Hd. rewrite Forall_lookup in Hd.
  by rewrite (Hd i m Hi).
Qed.

Lemma fold_deliver_drained schedule h :
  drained h → fold_left deliver schedule h = h.
Proof.
  intros Hd. induction schedule as [| i schedule IH]; [reflexivity|].
  simpl. by rewrite deliver_drained.
Qed.

(** X15. When no asset is matched (no asset, no rule, or no match), the
    hook touches nothing and reports success at once, whatever the
    primitive would have done: no call, no warning, no error, and the
    callback invoked once, without error, before any later turn. *)
Theorem nothing_matched_completes_at_once
    path_join rules compiler c σ fs schedule :
  outputFileSystem compiler = Some fs →
  typeof (chmod fs) = TFunction →
  assets c = [] ∨ rules = [] ∨
  matched_assets rules (Object_keys (assets c)) σ = [] →
  let h := run_hook path_join rules compiler c σ schedule in
  chmod_calls (world h) = [] ∧
  warnings (compilation (world h)) = warnings c ∧
  errors (compilation (world h)) = errors c ∧
  callback_calls (world h) = [None].
Proof.
  intros Hfs Hf Hnone h. subst h.
  assert (Hm : matched_assets rules (Object_keys (assets c)) σ = []).
  { destruct Hnone as [-> | [-> | H]];
      [reflexivity | apply matched_assets_no_rules | exact H]. }
  assert (Hops : run_operations path_join rules compiler fs c σ = []).
  { unfold run_operations. by rewrite Hm. }
  unfold run_hook.
  rewrite (afterEmit_with_chmod path_join rules compiler c σ fs) by assumption.
  rewrite Hops. unfold Promise_all_reaction. simpl.
  rewrite fold_deliver_drained by constructor.
  simpl. by rewrite app_nil_r.
Qed.

Lemma nothing_matched_completes_at_once_witness :
  callback_calls
    (world (run_hook posix_join [] (scenario_compiler (Some chmod_throws))
              scenario_compilation ∅ [0]))
  = [None].
Proof.
  apply (nothing_matched_completes_at_once posix_join []
           (scenario_compiler (Some chmod_throws)) scenario_compilation ∅
           chmod_throws [0] eq_refl eq_refl).
  right; left. reflexivity.
Defined.

Lemma op_warnings_sync (l : list Operation) :
  Forall (λ o, later_callbacks (op_run o) = []) l →
  l ≫= op_sync_warnings = l ≫= op_warnings.
Proof.
  induction 1 as [| o l Ho _ IH]; [reflexivity|].
  rewrite !bind_cons, IH. f_equal.
  unfold op_warnings, op_sync_warnings, op_callbacks.
  by rewrite Ho, app_nil_r.
Qed.

(** X16. When the primitive makes all its invocations inside the calls, as
    the mock of the tests does, the run is over when the hook returns: the
    warnings added are those of the reported errors in the order of the
    assets, and no later delivery changes the world. *)
Theorem synchronous_primitive_warns_in_asset_order
    path_join rules compiler c σ fs schedule :
  outputFileSystem compiler = Some fs →
  typeof (chmod fs) = TFunction →
  (∀ n path mode, later_callbacks (chmod_run fs n path mode) = []) →
  run_hook path_join rules compiler c σ schedule
  = run_hook path_join rules compiler c σ [] ∧
  warnings (compilation (world (run_hook path_join rules compiler c σ schedule)))
  = warnings c ++
    (run_operations path_join rules compiler fs c σ
     ≫= (λ o, omap (λ err, (λ e, new_Error (msg_could_not_set (op_path o) e))
                             <$> err)
                   (sync_callbacks (op_run o)))).
Proof.
  intros Hfs Hf Hlater.
  assert (Hops : Forall (λ o, later_callbacks (op_run o) = [])
                   (run_operations path_join rules compiler fs c σ)).
  { apply (operations_Forall (λ r, later_callbacks r = [])). exact Hlater. }
  assert (Hd : drained (afterEmit path_join rules compiler c σ)).
  { unfold drained.
    rewrite (afterEmit_with_chmod path_join rules compiler c σ fs)
      by assumption.
    rewrite Promise_all_reaction_mods. simpl. by apply Forall_map. }
  assert (E : run_hook path_join rules compiler c σ schedule
              = run_hook path_join rules compiler c σ []).
  { unfold run_hook. by rewrite fold_deliver_drained. }
  split; [exact E|]. rewrite E. unfold run_hook. simpl.
  rewrite (afterEmit_with_chmod path_join rules compiler c σ fs) by assumption.
  by rewrite Promise_all_reaction_warnings.
Qed.

Lemma synchronous_primitive_warns_in_asset_order_witness :
  warnings
    (compilation
       (world (run_hook posix_join scenario_rules
                 (scenario_compiler (Some chmod_denied)) scenario_compilation
                 ∅ [1; 0])))
  = [new_Error (msg_could_not_set "/out/script.js" permission_denied);
     new_Error (msg_could_not_set "/out/style.css" permission_denied)].
Proof.
  apply (proj2 (synchronous_primitive_warns_in_asset_order posix_join
                  scenario_rules (scenario_compiler (Some chmod_denied))
                  scenario_compilation ∅ chmod_denied [1; 0]
                  eq_refl eq_refl (λ _ _ _, eq_refl))).
Defined.

(** ** Completion, and the operations in the words of the specification *)

(** Either nothing is owed any more, or some promise is owed an
    invocation. *)
Lemma queued_cases (ms : list Mod) :
  Forall (λ m, queued m = []) ms ∨
  ∃ i m err rest, ms !! i = Some m ∧ queued m = err :: rest.
Proof.
  induction ms as [| m ms IH]; [left; constructor|].
  destruct (queued m) as [| err rest] eqn:Hq.
  - destruct IH as [IH | (i & m' & err & rest & Hi & Hq')].
    + left. by constructor.
    + right. by exists (S i), m', err, rest.
  - right. by exists 0, m, err, rest.
Qed.

(** A delivery takes one invocation from what is owed. *)
Lemma queued_insert (ms : list Mod) i m err rest :
  ms !! i = Some m →
  queued m = err :: rest →
  length (ms ≫= queued)
  = S (length (<[i:={| filePath := filePath m; promise := resolve (promise m);
                       queued := rest |}]> ms ≫= queued)).
Proof.
  revert i. induction ms as [| m0 ms IH]; intros i Hi Hq; [done|].
  destruct i as [| i]; simpl in Hi.
  - injection Hi as ->.
    change (length (queued m ++ (ms ≫= queued)) = S (length (rest ++ (ms ≫= queued)))).
    rewrite !length_app, Hq. reflexivity.
  - change (length (queued m0 ++ (ms ≫= queued))
            = S (length (queued m0 ++
                   (<[i:={| filePath := filePath m;
                            promise := resolve (promise m);
                            queued := rest |}]> ms ≫= queued)))).
    rewrite !length_app, (IH i Hi Hq). lia.
Qed.

(** Whatever has been delivered, the primitive can make the invocations it
    still owes; what is owed is finite. *)
Lemma fold_deliver_can_drain n :
  ∀ h, length (mods h ≫= queued) = n →
       ∃ schedule, drained (fold_left deliver schedule h).
Proof.
  induction n as [| n IH]; intros h Hn.
  - exists []. simpl. unfold drained.
    destruct (queued_cases (mods h)) as [H | (i & m & err & rest & Hi & Hq)];
      [exact H|].
    rewrite (queued_insert _ i m err rest Hi Hq) in Hn. discriminate.
  - destruct (queued_cases (mods h)) as [H | (i & m & err & rest & Hi & Hq)].
    + by exists [].
    + destruct (IH (deliver h i)) as [schedule Hd].
      * unfold deliver. rewrite Hi, Hq, Promise_all_reaction_mods.
        cbn [mods]. rewrite (queued_insert _ i m err rest Hi Hq) in Hn.
        by injection Hn.
      * by exists (i :: schedule).
Qed.

Lemma run_hook_can_drain path_join rules compiler c σ schedule :
  ∃ schedule',
    drained (run_hook path_join rules compiler c σ (schedule ++ schedule')).
Proof.
  destruct (fold_deliver_can_drain _
              (run_hook path_join rules compiler c σ schedule) eq_refl)
    as [schedule' Hd].
  exists schedule'. unfold run_hook in *. by rewrite fold_left_app.
Qed.

Lemma length_omap_fmap {A B C : Type} (f : A → option B) (g : A → B → C)
    (l : list A) :
  length (omap (λ x, g x <$> f x) l) = length (omap f l).
Proof.
  induction l as [| x l IH]; [reflexivity|].
  simpl. destruct (f x); simpl; by f_equal.
Qed.

(** X17. When no regular expression of the rules carries the [g] or the [y]
    flag and the primitive always succeeds, the hook issues one operation
    for each asset that has a match result in the sense of the
    specification, with the joined path and the permissions of that rule, N
    operations for N such assets and none for the others; it records no
    warning and no error; once the primitive has made its invocations the
    callback has been invoked once, without error; and whatever has been
    delivered so far, the primitive can make the remaining invocations, after
    which that is the case. *)
Theorem stateless_rules_one_operation_per_match
    path_join rules compiler c σ fs schedule :
  Forall (λ rule, Forall stateless (patterns rule)) rules →
  outputFileSystem compiler = Some fs →
  typeof (chmod fs) = TFunction →
  always_succeeds fs →
  let h := run_hook path_join rules compiler c σ schedule in
  chmod_calls (world h)
  = omap (λ assetName,
            (λ rule, (path_join (output_path compiler) assetName,
                      permissions rule)) <$> first_match rules assetName)
         (Object_keys (assets c)) ∧
  length (chmod_calls (world h))
  = length (omap (first_match rules) (Object_keys (assets c))) ∧
  warnings (compilation (world h)) = warnings c ∧
  errors (compilation (world h)) = errors c ∧
  (drained h → callback_calls (world h) = [None]) ∧
  ∃ schedule',
    let h' := run_hook path_join rules compiler c σ (schedule ++ schedule') in
    drained h' ∧
    callback_calls (world h') = [None] ∧
    chmod_calls (world h') = chmod_calls (world h) ∧
    warnings (compilation (world h')) = warnings c ∧
    errors (compilation (world h')) = errors c.
Proof.
  intros Hs Hfs Hf Hok h. subst h.
  assert (Hcalls : ∀ schedule0,
    chmod_calls (world (run_hook path_join rules compiler c σ schedule0))
    = omap (λ assetName,
              (λ rule, (path_join (output_path compiler) assetName,
                        permissions rule)) <$> first_match rules assetName)
           (Object_keys (assets c))).
  { intros schedule0.
    destruct (matched_assets_stateless rules (Object_keys (assets c)) σ Hs)
      as [Hm _].
    rewrite (run_hook_calls_matched _ _ _ _ _ fs), Hm by assumption.
    rewrite fmap_omap. apply omap_ext_eq. intros assetName.
    by destruct (first_match rules assetName). }
  destruct (run_hook_always_succeeds path_join rules compiler c σ fs Hfs Hf
              schedule Hok) as (Hw & He & Hc).
  split; [apply Hcalls|]. split.
  { rewrite Hcalls.
    apply (length_omap_fmap (first_match rules)
             (λ assetName rule, (path_join (output_path compiler) assetName,
                                 permissions rule))). }
  split; [exact Hw|]. split; [exact He|]. split; [exact Hc|].
  destruct (run_hook_can_drain path_join rules compiler c σ schedule)
    as [schedule' Hd].
  exists schedule'. cbv zeta.
  destruct (run_hook_always_succeeds path_join rules compiler c σ fs Hfs Hf
              (schedule ++ schedule') Hok) as (Hw' & He' & Hc').
  split; [exact Hd|]. split; [exact (Hc' Hd)|].
  split; [by rewrite !Hcalls|]. split; assumption.
Qed.

Lemma stateless_rules_one_operation_per_match_witness :
  let h := run_hook posix_join scenario_rules
             (scenario_compiler (Some chmod_succeeds_later))
             scenario_compilation ∅ [1] in
  chmod_calls (world h)
  = [("/out/script.js", JSNumber 493); ("/out/style.css", JSNumber 420)] ∧
  length (chmod_calls (world h)) = 2 ∧
  warnings (compilation (world h)) = [] ∧
  errors (compilation (world h)) = [] ∧
  callback_calls (world h) = [] ∧
  ¬ drained h ∧
  ∃ schedule',
    drained (run_hook posix_join scenario_rules
               (scenario_compiler (Some chmod_succeeds_later))
               scenario_compilation ∅ ([1] ++ schedule')) ∧
    callback_calls
      (world (run_hook posix_join scenario_rules
                (scenario_compiler (Some chmod_succeeds_later))
                scenario_compilation ∅ ([1] ++ schedule')))
    = [None].
Proof.
  destruct (stateless_rules_one_operation_per_match posix_join scenario_rules
              (scenario_compiler (Some chmod_succeeds_later))
              scenario_compilation ∅ chmod_succeeds_later [1])
    as (Hcalls & Hlen & Hw & He & _ & schedule' & Hd & Hc & _).
  - repeat constructor.
  - reflexivity.
  - reflexivity.
  - intros n path mode. simpl. split; [reflexivity|]. split; [discriminate|].
    by constructor.
  - cbv zeta. split; [exact Hcalls|]. split; [exact Hlen|].
    split; [exact Hw|]. split; [exact He|]. split; [reflexivity|].
    split.
    + intros H. apply Forall_cons in H as [H _]. discriminate.
    + exists schedule'. split; [exact Hd | exact Hc].
Defined.
